(** * Game.py: the 3x3 board and its two search procedures

    A shallow embedding of [src/Game.py]: the [TicTacToe] class, the
    memoised minimax [smart_move_finder], the alpha-beta variant
    [optimized_move_finder], the turn loop [run_game] with the two search
    strategies, and the text printed by [display].

    Python objects that are mutated in place (the board, the result
    dictionaries [{'move': .., 'value': ..}] and the [memory] dictionaries)
    live in an explicit store; functions pass the store along and may raise. *)

From Stdlib Require Import ZArith Lia Ascii String.
From stdpp Require Import gmap list sorting strings.

Open Scope Z_scope.

(** ** Exceptions and the result of a call *)

(** [IndexError] and [TypeError] are Python's.  [OutOfFuel] marks a
    recursion cut by the fuel of the model and [Dangling] an address that
    is not in the store; neither is a behaviour of the program and the
    theorems below exclude both. *)
Inductive error := IndexError | TypeError | OutOfFuel | Dangling.

Inductive outcome (A : Type) :=
| Done (a : A)
| Raise (e : error).
Arguments Done {A} a.
Arguments Raise {A} e.

Definition bind {A B} (c : outcome A) (k : A → outcome B) : outcome B :=
  match c with
  | Done a => k a
  | Raise e => Raise e
  end.

Notation "x <- c ;; k" := (bind c (λ x, k))
  (at level 100, c at next level, right associativity).

(** ** Marks, cells and the board object *)

(** The two marks, the strings ['X'] and ['O'] of the source.  A [symbol]
    or [player] argument is one of them. *)
Inductive mark := X | O.

#[global] Instance mark_eq_dec : EqDecision mark.
Proof. solve_decision. Defined.

#[global] Instance mark_countable : Countable mark.
Proof.
  refine (inj_countable' (λ m, match m with X => true | O => false end)
                         (λ b : bool, if b then X else O) _).
  by intros [].
Defined.

(** A cell holds [' '] ([None]) or a mark. *)
Abbreviation cell := (option mark).

(** [self.grid] and [self.victor]. *)
Record TicTacToe := { grid : list cell; victor : option mark }.

(** [__init__] *)
Definition new_game : TicTacToe := {| grid := replicate 9 None; victor := None |}.

(** Python's list indexing: [l[i]] with [i] negative counts from the end,
    and anything outside [-len .. len-1] raises [IndexError]. *)
Definition index {A} (l : list A) (i : Z) : outcome nat :=
  let n := Z.of_nat (length l) in
  if (0 <=? i) && (i <? n) then Done (Z.to_nat i)
  else if (- n <=? i) && (i <? 0) then Done (Z.to_nat (i + n))
  else Raise IndexError.

Definition getitem {A} (l : list A) (i : Z) : outcome A :=
  k <- index l i ;;
  match l !! k with
  | Some x => Done x
  | None => Raise IndexError
  end.

Definition setitem {A} (l : list A) (i : Z) (x : A) : outcome (list A) :=
  k <- index l i ;;
  Done (<[k:=x]> l).

Definition enumerate {A} (l : list A) : list (Z * A) :=
  imap (λ i x, (Z.of_nat i, x)) l.

(** [[i for i, cell in enumerate(self.grid) if cell == ' ']] *)
Definition free_spaces (self : TicTacToe) : list Z :=
  fst <$> filter (λ p, p.2 = None) (enumerate (grid self)).

(** [' ' in self.grid] *)
Definition has_space (self : TicTacToe) : bool :=
  bool_decide (None ∈ grid self).

(** [self.grid.count(' ')] *)
Definition count_free (self : TicTacToe) : Z :=
  Z.of_nat (length (filter (λ c, c = None) (grid self))).

(** [all(self.grid[i] == symbol for i in idxs)]: the generator is consumed
    left to right and stops at the first cell that differs. *)
Fixpoint all_marked (g : list cell) (symbol : mark) (idxs : list Z) : outcome bool :=
  match idxs with
  | [] => Done true
  | i :: rest =>
      c <- getitem g i ;;
      if decide (c = Some symbol) then all_marked g symbol rest else Done false
  end.

Definition range3 : list Z := [0; 1; 2].

Definition check_win (pos : Z) (symbol : mark) (self : TicTacToe) : outcome bool :=
  let g := grid self in
  let row := pos `div` 3 in
  r <- all_marked g symbol ((λ col, row * 3 + col) <$> range3) ;;
  if r then Done true else
  let col := pos `mod` 3 in
  c <- all_marked g symbol ((λ row, col + row * 3) <$> range3) ;;
  if c then Done true else
  if pos `mod` 2 =? 0 then
    d <- all_marked g symbol [0; 4; 8] ;;
    if d then Done true else
    a <- all_marked g symbol [2; 4; 6] ;;
    if a then Done true else Done false
  else Done false.

(** [place_marker] returns its boolean together with the board as the
    call leaves it. *)
Definition place_marker (pos : Z) (symbol : mark) (self : TicTacToe)
  : outcome (bool * TicTacToe) :=
  c <- getitem (grid self) pos ;;
  if decide (c = None) then
    g' <- setitem (grid self) pos (Some symbol) ;;
    let self' := {| grid := g'; victor := victor self |} in
    w <- check_win pos symbol self' ;;
    Done (true, if w then {| grid := g'; victor := Some symbol |} else self')
  else Done (false, self).

(** The search's undo, [game_state.grid[move] = ' '] followed by
    [game_state.victor = None]. *)
Definition revert_move (move : Z) (self : TicTacToe) : outcome TicTacToe :=
  g' <- setitem (grid self) move None ;;
  Done {| grid := g'; victor := None |}.

Definition board (c0 c1 c2 c3 c4 c5 c6 c7 c8 : cell) (v : option mark) : TicTacToe :=
  {| grid := [c0; c1; c2; c3; c4; c5; c6; c7; c8]; victor := v |}.


(** ** Numbers and result dictionaries *)

(** The values the search compares: Python integers and the two floats
    [-float('inf')] and [float('inf')]. *)
Inductive num := NegInf | Int (z : Z) | PosInf.

#[global] Instance num_eq_dec : EqDecision num.
Proof. solve_decision. Defined.

Definition num_ltb (a b : num) : bool :=
  match a, b with
  | NegInf, NegInf => false
  | NegInf, _ => true
  | Int x, Int y => x <? y
  | Int _, PosInf => true
  | _, _ => false
  end.

Definition num_leb (a b : num) : bool := negb (num_ltb b a).

(** [max(a, b)] keeps [a] unless [b > a]; [min(a, b)] keeps [a] unless [b < a]. *)
Definition num_max (a b : num) : num := if num_ltb a b then b else a.
Definition num_min (a b : num) : num := if num_ltb b a then b else a.

(** [{'move': .., 'value': ..}] *)
Record result := { move : option Z; value : num }.

(** ** The store *)

(** The board object [game_state], the result dictionaries and the
    [memory] dictionaries; an address is a position in its list. *)
Record state := {
  game : TicTacToe;
  dicts : list result;
  memos : list (gmap (list cell) nat)
}.

Definition with_game (g : TicTacToe) (st : state) : state :=
  {| game := g; dicts := dicts st; memos := memos st |}.

(** A dictionary literal [{'move': m, 'value': v}] allocates. *)
Definition new_dict (r : result) (st : state) : nat * state :=
  (length (dicts st),
   {| game := game st; dicts := dicts st ++ [r]; memos := memos st |}).

(** The literal [{}]. *)
Definition new_memo (st : state) : nat * state :=
  (length (memos st),
   {| game := game st; dicts := dicts st; memos := memos st ++ [∅] |}).

Definition read (a : nat) (st : state) : outcome result :=
  match dicts st !! a with
  | Some r => Done r
  | None => Raise Dangling
  end.

Definition memo_at (m : nat) (st : state) : outcome (gmap (list cell) nat) :=
  match memos st !! m with
  | Some d => Done d
  | None => Raise Dangling
  end.

(** [outcome['move'] = move] *)
Definition set_move (a : nat) (mv : Z) (st : state) : outcome state :=
  r <- read a st ;;
  Done {| game := game st;
          dicts := <[a := {| move := Some mv; value := value r |}]> (dicts st);
          memos := memos st |}.

(** [memory[state_key] = best] *)
Definition memo_store (m : nat) (key : list cell) (a : nat) (st : state) : outcome state :=
  d <- memo_at m st ;;
  Done {| game := game st; dicts := dicts st;
          memos := <[m := <[key := a]> d]> (memos st) |}.

(** [memory = memory or {}]: [None] and the empty dictionary are both
    falsy, so either is replaced by a new dictionary. *)
Definition memory_or_new (memory : option nat) (st : state) : outcome (nat * state) :=
  match memory with
  | None => Done (new_memo st)
  | Some m =>
      d <- memo_at m st ;;
      if decide (d = ∅) then Done (new_memo st) else Done (m, st)
  end.

(** ['O' if player == 'X' else 'X'] *)
Definition other (player : mark) : mark := if decide (player = X) then O else X.

(** [outcome['value'] > best['value']] on the maximizing branch,
    [outcome['value'] < best['value']] on the minimizing one. *)
Definition improves (is_maximizing : bool) (o b : num) : bool :=
  if is_maximizing then num_ltb b o else num_ltb o b.

(** ** smart_move_finder *)

(** The body of the [for] loops.  The source writes it four times (the
    maximizing and the minimizing branch of each search); the copies
    differ in the mark placed and in the comparison, which [symbol] and
    [is_maximizing] select.  It returns the address [best] is bound to
    after the iteration. *)
Section try_move.
Context (recurse : state → outcome (nat * state)).
Context (symbol : mark) (is_maximizing : bool).

Definition try_move (mv : Z) (best : nat) (st : state) : outcome (nat * state) :=
p <- place_marker mv symbol (game st) ;;
r <- recurse (with_game p.2 st) ;;
let outcome := r.1 in
g <- revert_move mv (game r.2) ;;
st <- set_move outcome mv (with_game g r.2) ;;
o <- read outcome st ;;
b <- read best st ;;
Done (if improves is_maximizing (value o) (value b) then outcome else best, st).

Fixpoint smart_loop (moves : list Z) (best : nat) (st : state)
: outcome (nat * state) :=
match moves with
| [] => Done (best, st)
| mv :: rest =>
    r <- try_move mv best st ;;
    smart_loop rest r.1 r.2
end.
End try_move.

(** The value of a finished game, seen from [player]; [None] while the
    game goes on. *)
Definition terminal (player : mark) (self : TicTacToe) : option result :=
  let opponent := other player in
  if decide (victor self = Some player) then
    Some {| move := None; value := Int (1 * (count_free self + 1)) |}
  else if decide (victor self = Some opponent) then
    Some {| move := None; value := Int (-1 * (count_free self + 1)) |}
  else if negb (has_space self) then
    Some {| move := None; value := Int 0 |}
  else None.

(** The dictionary [best] starts from. *)
Definition worst (is_maximizing : bool) : result :=
  {| move := None; value := if is_maximizing then NegInf else PosInf |}.

Fixpoint smart_move_finder (fuel : nat) (is_maximizing : bool) (player : mark)
    (memory : option nat) (st : state) : outcome (nat * state) :=
  match fuel with
  | 0%nat => Raise OutOfFuel
  | S fuel =>
      ms <- memory_or_new memory st ;;
      let memory := ms.1 in
      let st := ms.2 in
      let state_key := grid (game st) in
      d <- memo_at memory st ;;
      match d !! state_key with
      | Some cached => Done (cached, st)
      | None =>
          match terminal player (game st) with
          | Some r => Done (new_dict r st)
          | None =>
              let bs := new_dict (worst is_maximizing) st in
              r <- smart_loop
                     (smart_move_finder fuel (negb is_maximizing) player (Some memory))
                     (if is_maximizing then player else other player) is_maximizing
                     (free_spaces (game st)) bs.1 bs.2 ;;
              st <- memo_store memory state_key r.1 r.2 ;;
              Done (r.1, st)
          end
      end
  end.

(** ** optimized_move_finder *)

Section optimized_loop.
Context (recurse : num → num → state → outcome (nat * state)).
Context (symbol : mark) (is_maximizing : bool).

Fixpoint optimized_loop (moves : list Z) (best : nat) (alpha beta : num) (st : state)
: outcome (nat * state) :=
match moves with
| [] => Done (best, st)
| mv :: rest =>
    r <- try_move (recurse alpha beta) symbol is_maximizing mv best st ;;
    b <- read r.1 r.2 ;;
    let alpha := if is_maximizing then num_max alpha (value b) else alpha in
    let beta := if is_maximizing then beta else num_min beta (value b) in
    if num_leb beta alpha then Done r
    else optimized_loop rest r.1 alpha beta r.2
end.
End optimized_loop.

Fixpoint optimized_move_finder (fuel : nat) (is_maximizing : bool) (player : mark)
    (alpha beta : num) (memory : option nat) (st : state) : outcome (nat * state) :=
  match fuel with
  | 0%nat => Raise OutOfFuel
  | S fuel =>
      ms <- memory_or_new memory st ;;
      let memory := ms.1 in
      let st := ms.2 in
      let state_key := grid (game st) in
      d <- memo_at memory st ;;
      match d !! state_key with
      | Some cached => Done (cached, st)
      | None =>
          match terminal player (game st) with
          | Some r => Done (new_dict r st)
          | None =>
              let bs := new_dict (worst is_maximizing) st in
              r <- optimized_loop
                     (λ a b, optimized_move_finder fuel (negb is_maximizing) player a b
                               (Some memory))
                     (if is_maximizing then player else other player) is_maximizing
                     (free_spaces (game st)) bs.1 alpha beta bs.2 ;;
              st <- memo_store memory state_key r.1 r.2 ;;
              Done (r.1, st)
          end
      end
  end.

(** ** run_game and the two search strategies *)

Definition strategy := mark → state → outcome (option Z * state).

(** [smart_move_finder(game, True, symbol)['move']], after a [time.sleep]
    that is left out. *)
Definition minimax_strategy (fuel : nat) : strategy := λ symbol st,
  r <- smart_move_finder fuel true symbol None st ;;
  d <- read r.1 r.2 ;;
  Done (move d, r.2).

(** [optimized_move_finder(game, True, symbol)['move']] *)
Definition alphabeta_strategy (fuel : nat) : strategy := λ symbol st,
  r <- optimized_move_finder fuel true symbol NegInf PosInf None st ;;
  d <- read r.1 r.2 ;;
  Done (move d, r.2).

(** The [while] loop of [run_game]; [turns] bounds its iterations.  A
    position that is [None] cannot index the grid: [TypeError].  What the
    loop prints when [show_moves] is set and its [time.sleep] calls change
    neither the board nor the result and are left out. *)
Fixpoint run_game_loop (turns : nat) (x_strategy o_strategy : strategy)
    (current_player : mark) (st : state) : outcome (option mark * state) :=
  match turns with
  | 0%nat => Raise OutOfFuel
  | S turns =>
      if has_space (game st) then
        r <- (if decide (current_player = O) then o_strategy else x_strategy)
               current_player st ;;
        match r.1 with
        | None => Raise TypeError
        | Some position =>
            p <- place_marker position current_player (game r.2) ;;
            let st := with_game p.2 r.2 in
            if p.1 then
              match victor (game st) with
              | Some _ => Done (Some current_player, st)
              | None => run_game_loop turns x_strategy o_strategy (other current_player) st
              end
            else run_game_loop turns x_strategy o_strategy current_player st
        end
      else Done (None, st)
  end.

Definition run_game (turns : nat) (x_strategy o_strategy : strategy) (st : state)
  : outcome (option mark * state) :=
  run_game_loop turns x_strategy o_strategy X st.

(** ** The searches without the store

    What the two procedures compute when no lookup in [memory] ever hits:
    the same recursion on the board alone.  [smart_move_finder_fresh] and
    [optimized_move_finder_fresh] below show that a call with [memory]
    absent or empty is such a run. *)
Section eval_move.
Context (recurse : TicTacToe → outcome result).
Context (symbol : mark) (is_maximizing : bool).

Definition eval_move (mv : Z) (best : result) (g : TicTacToe) : outcome result :=
p <- place_marker mv symbol g ;;
o <- recurse p.2 ;;
let o := {| move := Some mv; value := value o |} in
Done (if improves is_maximizing (value o) (value best) then o else best).

Fixpoint minimax_loop (moves : list Z) (best : result) (g : TicTacToe)
: outcome result :=
match moves with
| [] => Done best
| mv :: rest =>
    b <- eval_move mv best g ;;
    minimax_loop rest b g
end.
End eval_move.

Fixpoint minimax (fuel : nat) (is_maximizing : bool) (player : mark) (g : TicTacToe)
  : outcome result :=
  match fuel with
  | 0%nat => Raise OutOfFuel
  | S fuel =>
      match terminal player g with
      | Some r => Done r
      | None =>
          minimax_loop (minimax fuel (negb is_maximizing) player)
            (if is_maximizing then player else other player) is_maximizing
            (free_spaces g) (worst is_maximizing) g
      end
  end.

Section alphabeta_loop.
Context (recurse : num → num → TicTacToe → outcome result).
Context (symbol : mark) (is_maximizing : bool).

Fixpoint alphabeta_loop (moves : list Z) (best : result) (alpha beta : num)
  (g : TicTacToe) : outcome result :=
match moves with
| [] => Done best
| mv :: rest =>
    b <- eval_move (recurse alpha beta) symbol is_maximizing mv best g ;;
    let alpha := if is_maximizing then num_max alpha (value b) else alpha in
    let beta := if is_maximizing then beta else num_min beta (value b) in
    if num_leb beta alpha then Done b
    else alphabeta_loop rest b alpha beta g
end.
End alphabeta_loop.

Fixpoint alphabeta (fuel : nat) (is_maximizing : bool) (player : mark)
    (alpha beta : num) (g : TicTacToe) : outcome result :=
  match fuel with
  | 0%nat => Raise OutOfFuel
  | S fuel =>
      match terminal player g with
      | Some r => Done r
      | None =>
          alphabeta_loop (alphabeta fuel (negb is_maximizing) player)
            (if is_maximizing then player else other player) is_maximizing
            (free_spaces g) (worst is_maximizing) alpha beta g
      end
  end.

(** A store holding only the board, as when the program begins. *)
Definition start (g : TicTacToe) : state := {| game := g; dicts := []; memos := [] |}.

(** ** Notions used in the statements *)

Definition num_lt (a b : num) : Prop := num_ltb a b = true.
Definition num_le (a b : num) : Prop := num_leb a b = true.

(** Comparisons of numbers are sent to linear arithmetic: below a bound
    [M] larger than every integer in sight, [key M] is an order
    embedding into [Z]. *)
Definition key (M : Z) (a : num) : Z :=
  match a with NegInf => - M | Int z => z | PosInf => M end.
Definition small (M : Z) (a : num) : Prop :=
  match a with Int z => - M < z < M | _ => 0 < M end.

(** [st'] has the board of [st] and keeps every object of [st] as it is. *)
Definition extends (st st' : state) : Prop :=
  game st' = game st ∧ dicts st `prefix_of` dicts st' ∧ memos st `prefix_of` memos st'.

(** The [memory] argument is absent or an empty dictionary. *)
Definition fresh (memory : option nat) (st : state) : Prop :=
  match memory with
  | None => True
  | Some m => memos st !! m = Some ∅
  end.

(** A loop started with [best] at address [b] ends like the store-free
    loop [p]: it raises the same error, or it returns an address, either
    [b] or a new one, that holds the result of [p]. *)
Definition loops_as (c : outcome (nat * state)) (st : state) (b : nat)
    (p : outcome result) : Prop :=
  match p with
  | Done r => ∃ a st', c = Done (a, st') ∧ extends st st' ∧
                       dicts st' !! a = Some r ∧ (a = b ∨ length (dicts st) ≤ a)%nat
  | Raise e => c = Raise e
  end.

(** The same for a call: the address returned is new. *)
Definition runs_as (c : outcome (nat * state)) (st : state) (p : outcome result) : Prop :=
  match p with
  | Done r => ∃ a st', c = Done (a, st') ∧ extends st st' ∧
                       dicts st' !! a = Some r ∧ (length (dicts st) ≤ a)%nat
  | Raise e => c = Raise e
  end.

(** What a search with window [(alpha, beta)] may return as [v] when the
    full search returns [t]: [t] itself inside the window, and outside it
    a bound that lies between [t] and the window's edge. *)
Definition within (alpha beta t v : num) : Prop :=
  (num_le t alpha → num_le t v ∧ num_le v alpha) ∧
  (num_lt alpha t → num_lt t beta → v = t) ∧
  (num_le beta t → num_le beta v ∧ num_le v t).

(** The grid has nine cells. *)
Definition well_formed (g : TicTacToe) : Prop := length (grid g) = 9%nat.

(** From a new board, any sequence of marks placed on cells that are
    empty, as [run_game] does with the positions its strategies return
    ([human_strategy] accepts a position only if it is in
    [free_spaces()]).  Neither the alternation of the marks nor the stop at
    the first win is required, so play by the rules is one such
    sequence; the searches leave the board as they found it and add
    nothing. *)
Inductive reachable : TicTacToe → Prop :=
| reachable_new : reachable new_game
| reachable_place g pos symbol p :
    reachable g → pos ∈ free_spaces g →
    place_marker pos symbol g = Done p → reachable p.2.

(** X, O, X, O on cells 0 to 3 and X to move: after X 4, O 5, X 6 and
    after X 6, O 5, X 4 the board is the same. *)
Definition transposing_board : TicTacToe :=
  board (Some X) (Some O) (Some X) (Some O) None None None None None None.

Definition transposed_grid : list cell :=
  [Some X; Some O; Some X; Some O; Some X; Some X; Some O; Some O; None].

Definition row_to_complete : TicTacToe :=
  board (Some X) (Some X) None (Some O) (Some O) None None None None None.

Definition corners_0_8 : TicTacToe :=
  board (Some X) None None None None None None None (Some X) None.
Definition edges_1_7 : TicTacToe :=
  board None (Some X) None None None None None (Some X) None None.

(** The lookup of the board in [memory] finds nothing. *)
Definition misses (memory : option nat) (st : state) : Prop :=
  match memory with
  | None => True
  | Some m => ∃ d, memos st !! m = Some d ∧ d !! grid (game st) = None
  end.

Definition won_with_three_left : TicTacToe :=
  board (Some O) (Some O) (Some O) (Some X) (Some X) None (Some X) None None (Some O).

Definition won_by_X : TicTacToe :=
  board (Some X) (Some X) (Some X) (Some O) (Some O) None None None None (Some X).

Definition move_chooser := mark → TicTacToe → outcome (option Z).

(** The [while] loop of [run_game] for strategies that leave the board
    as they found it. *)
Fixpoint play (turns : nat) (x_chooser o_chooser : move_chooser)
    (current_player : mark) (g : TicTacToe) : outcome (option mark * TicTacToe) :=
  match turns with
  | 0%nat => Raise OutOfFuel
  | S turns =>
      if has_space g then
        r <- (if decide (current_player = O) then o_chooser else x_chooser)
               current_player g ;;
        match r with
        | None => Raise TypeError
        | Some position =>
            p <- place_marker position current_player g ;;
            if p.1 then
              match victor p.2 with
              | Some _ => Done (Some current_player, p.2)
              | None => play turns x_chooser o_chooser (other current_player) p.2
              end
            else play turns x_chooser o_chooser current_player p.2
        end
      else Done (None, g)
  end.

Definition minimax_move (fuel : nat) : move_chooser := λ symbol g,
  r <- minimax fuel true symbol g ;; Done (move r).

Definition alphabeta_move (fuel : nat) : move_chooser := λ symbol g,
  r <- alphabeta fuel true symbol NegInf PosInf g ;; Done (move r).

(** A strategy on the store that chooses as [c] does and restores the
    board. *)
Definition chooses_as (s : strategy) (c : move_chooser) : Prop :=
  ∀ symbol st,
    match c symbol (game st) with
    | Done mv => ∃ st', s symbol st = Done (mv, st') ∧ game st' = game st
    | Raise e => s symbol st = Raise e
    end.

Definition drawn_game : TicTacToe :=
  board (Some X) (Some X) (Some O) (Some O) (Some O) (Some X) (Some X) (Some O) (Some X)
    None.

(** The eight lines of the board: rows, columns, diagonals. *)
Definition lines : list (list nat) :=
  [[0; 1; 2]; [3; 4; 5]; [6; 7; 8]; [0; 3; 6]; [1; 4; 7]; [2; 5; 8];
   [0; 4; 8]; [2; 4; 6]]%nat.

Definition line_full (g : list cell) (symbol : mark) (line : list nat) : bool :=
  forallb (λ i, bool_decide (g !! i = Some (Some symbol))) line.

(** Cell [k] lies on a line that [symbol] holds entirely. *)
Definition completes_line (g : list cell) (k : nat) (symbol : mark) : bool :=
  existsb (λ line, bool_decide (k ∈ line) && line_full g symbol line) lines.

Definition diagonal_full (g : list cell) (symbol : mark) : bool :=
  line_full g symbol [0; 4; 8]%nat || line_full g symbol [2; 4; 6]%nat.

(** All grids of [n] cells. *)
Fixpoint all_grids (n : nat) : list (list cell) :=
  match n with
  | 0%nat => [[]]
  | S n => flat_map (λ g, [None :: g; Some X :: g; Some O :: g]) (all_grids n)
  end.

(** What [check_win] answers for a mark just written on the empty cell
    [k], against the lines of the board. *)
Definition win_check_ok (g : list cell) (k : nat) (s : mark) : bool :=
  let g' := <[k := Some s]> g in
  match check_win (Z.of_nat k) s {| grid := g'; victor := None |} with
  | Done w =>
      implb (completes_line g' k s) w
      && implb w (completes_line g' k s || diagonal_full g s)
      && implb (diagonal_full g' s) (completes_line g' k s || diagonal_full g s)
      && implb (diagonal_full g' (other s)) (negb w && diagonal_full g (other s))
  | Raise _ => false
  end.

Definition grid_ok (g : list cell) : bool :=
  forallb (λ k,
    forallb (λ s,
      if bool_decide (g !! k = Some None) then win_check_ok g k s else true)
      [X; O])
    (seq 0 9).

(** The value of playing [mv]: the result of the search for the other
    side on the board the move leads to. *)
Definition move_value (fuel : nat) (is_maximizing : bool) (player : mark)
    (g : TicTacToe) (mv : Z) : outcome num :=
  p <- place_marker mv (if is_maximizing then player else other player) g ;;
  o <- minimax fuel (negb is_maximizing) player p.2 ;;
  Done (value o).

Definition cached_store : state :=
  {| game := new_game;
     dicts := [{| move := Some 4; value := Int 0 |}];
     memos := [{[ grid new_game := 0%nat ]}] |}.

Definition relabel_store : state :=
  {| game := new_game;
     dicts := [{| move := Some 7; value := Int 0 |}; worst true];
     memos := [{[ <[4%nat := Some X]> (grid new_game) := 0%nat ]}] |}.

(** A strategy that hands the board back as it received it. *)
Definition keeps_board (s : strategy) : Prop :=
  ∀ symbol st mv st', s symbol st = Done (mv, st') → game st' = game st.

Definition last_cell : TicTacToe :=
  board (Some X) (Some O) (Some X) (Some X) (Some O) (Some O) (Some O) (Some X) None None.

(** The strategy that always answers the last cell. *)
Definition plays_8 : strategy := λ _ st, Done (Some 8, st).

(** Cell [k] lies on a row or a column that [symbol] holds entirely. *)
Definition row_or_column_full (g : list cell) (k : nat) (symbol : mark) : bool :=
  existsb (λ line, bool_decide (k ∈ line) && line_full g symbol line) (take 6 lines).

(** What [check_win] answers at the negative index of an even cell. *)
Definition negative_check_ok (g : list cell) : bool :=
  forallb (λ k,
    forallb (λ s,
      if bool_decide (g !! k = Some None) then
        match check_win (Z.of_nat k - 9) s
                {| grid := <[k := Some s]> g; victor := None |} with
        | Done w => eqb w (row_or_column_full (<[k := Some s]> g) k s)
        | Raise _ => false
        end
      else true)
      [X; O])
    [0; 2; 4; 6; 8]%nat.

Definition diagonal_to_complete : TicTacToe :=
  board (Some X) (Some O) None None (Some X) (Some O) None None None None.

Definition last_cell_warm : state :=
  {| game := board (Some X) (Some O) (Some X) (Some X) (Some O) (Some O) (Some O)
               (Some X) None None;
     dicts := [{| move := None; value := Int 0 |}];
     memos := [{[ [] := 0%nat ]}] |}.

Definition last_cell_warm_after : state :=
  {| game := game last_cell_warm;
     dicts := [{| move := None; value := Int 0 |}; worst true;
               {| move := Some 8; value := Int 0 |}];
     memos := [<[grid (game last_cell_warm) := 2%nat]> {[ [] := 0%nat ]}] |}.

(** The text of a cell: the grid holds one-character strings. *)
Definition cell_text (c : cell) : string :=
  match c with
  | None => " "
  | Some X => "X"
  | Some O => "O"
  end.

(** [sep.join(l)] *)
Fixpoint join (sep : string) (l : list string) : string :=
  match l with
  | [] => ""
  | [s] => s
  | s :: rest => s +:+ sep +:+ join sep rest
  end.

(** [s * n] *)
Fixpoint times (s : string) (n : nat) : string :=
  match n with
  | 0%nat => ""
  | S n => s +:+ times s n
  end.

(** [l[a:b]] for [0 <= a <= b] *)
Definition slice {A} (l : list A) (a b : nat) : list A := take (b - a) (drop a l).

(** ["| " + " | ".join(row) + " |"] *)
Definition row_text (row : list cell) : string :=
  ("| " +:+ join " | " (cell_text <$> row)) +:+ " |".

(** The strings [display] passes to [print], in order. *)
Definition display (self : TicTacToe) : list string :=
  (String "010"%char (times "=" 13)) ::
  flat_map (λ row, [row_text row; times "=" 13])
    ((λ i, slice (grid self) (i * 3) ((i + 1) * 3)) <$> [0; 1; 2]%nat).

(** What [check_win] answers for a mark just written on the empty cell
    [k], for the position [k] and for the negative position [k - 9] of
    the same cell: the row and the column of the cell and, if the
    position is even, the two diagonals, whether the cell lies on them or
    not. *)
Definition check_win_exact (g : list cell) : bool :=
  forallb (λ k,
    forallb (λ s,
      if bool_decide (g !! k = Some None) then
        let g' := <[k := Some s]> g in
        match check_win (Z.of_nat k) s {| grid := g'; victor := None |},
              check_win (Z.of_nat k - 9) s {| grid := g'; victor := None |} with
        | Done w, Done w' =>
            eqb w (completes_line g' k s || (Nat.even k && diagonal_full g' s))
            && eqb w' (row_or_column_full g' k s || (Nat.odd k && diagonal_full g' s))
        | _, _ => false
        end
      else true)
      [X; O])
    (seq 0 9).

(** X on the cells 0, 4 and 8 and no winner recorded. *)
Definition unrecorded_diagonal : TicTacToe :=
  board (Some X) None None None (Some X) None None None (Some X) None.

Definition cold_store : state :=
  {| game := last_cell; dicts := []; memos := [∅] |}.

Definition cold_store_after : state :=
  {| game := last_cell;
     dicts := [worst true; {| move := Some 8; value := Int 0 |}];
     memos := [∅; {[ grid last_cell := 1%nat ]}; ∅] |}.

Definition used_store : state :=
  {| game := last_cell;
     dicts := [{| move := Some 3; value := Int 7 |}];
     memos := [{[ grid new_game := 0%nat ]}] |}.

Definition used_store_after : state :=
  {| game := last_cell;
     dicts := [{| move := Some 3; value := Int 7 |}; worst true;
               {| move := Some 8; value := Int 0 |}];
     memos := [{[ grid new_game := 0%nat ]}; {[ grid last_cell := 2%nat ]}; ∅] |}.

(** The full search of [transposing_board]: the address returned and the
    store left. *)
Definition full_search : nat * state :=
  match smart_move_finder 10 true X None (start transposing_board) with
  | Done p => p
  | Raise _ => (0%nat, start transposing_board)
  end.

(** * Facts *)

(** ** The monad *)

Lemma bind_Done {A B} (c : outcome A) (k : A → outcome B) b :
  bind c k = Done b → ∃ a, c = Done a ∧ k a = Done b.
Proof. destruct c as [a|e]; simpl; [eauto | discriminate]. Qed.

(** ** The order on numbers *)

Lemma small_exists (l : list num) : ∃ M, 0 < M ∧ Forall (small M) l.
Proof.
  induction l as [|a l (M & HM0 & HM)].
  - by exists 1.
  - exists (M + Z.abs (key 0 a)). split; [lia|]. constructor.
    + destruct a; simpl; lia.
    + eapply Forall_impl; [done|]. intros [] ?; simpl in *; lia.
Qed.

Lemma ltb_key M a b (Ha : small M a) (Hb : small M b) :
  num_ltb a b = true ↔ key M a < key M b.
Proof. destruct a, b; simpl in *; rewrite ?Z.ltb_lt; intuition (done || lia). Qed.

Lemma geb_key M a b (Ha : small M a) (Hb : small M b) :
  num_ltb a b = false ↔ key M b ≤ key M a.
Proof. destruct a, b; simpl in *; rewrite ?Z.ltb_ge; intuition (done || lia). Qed.

Lemma eq_key M a b (Ha : small M a) (Hb : small M b) :
  a = b ↔ key M a = key M b.
Proof.
  split; [by intros ->|]. destruct a, b; simpl in *; intros; try done; try lia.
  by subst.
Qed.

Lemma key_bound M a : small M a → - M ≤ key M a ≤ M.
Proof. destruct a; simpl; lia. Qed.

Lemma num_max_spec a b :
  (num_ltb a b = true ∧ num_max a b = b) ∨ (num_ltb a b = false ∧ num_max a b = a).
Proof. unfold num_max. destruct (num_ltb a b); auto. Qed.

Lemma num_min_spec a b :
  (num_ltb b a = true ∧ num_min a b = b) ∨ (num_ltb b a = false ∧ num_min a b = a).
Proof. unfold num_min. destruct (num_ltb b a); auto. Qed.

Ltac num_split :=
  repeat match goal with
         | |- context [if num_ltb ?a ?b then _ else _] =>
             let E := fresh in destruct (num_ltb a b) eqn:E
         | _ : context [if num_ltb ?a ?b then _ else _] |- _ =>
             let E := fresh in destruct (num_ltb a b) eqn:E
         | |- context [num_max ?a ?b] =>
             let E := fresh in let Q := fresh in
             destruct (num_max_spec a b) as [[E Q]|[E Q]]; rewrite Q in *; clear Q
         | _ : context [num_max ?a ?b] |- _ =>
             let E := fresh in let Q := fresh in
             destruct (num_max_spec a b) as [[E Q]|[E Q]]; rewrite Q in *; clear Q
         | |- context [num_min ?a ?b] =>
             let E := fresh in let Q := fresh in
             destruct (num_min_spec a b) as [[E Q]|[E Q]]; rewrite Q in *; clear Q
         | _ : context [num_min ?a ?b] |- _ =>
             let E := fresh in let Q := fresh in
             destruct (num_min_spec a b) as [[E Q]|[E Q]]; rewrite Q in *; clear Q
         end.

Ltac num_vars acc :=
  match goal with
  | x : num |- _ =>
      lazymatch acc with
      | context [x] => fail
      | _ => num_vars (x :: acc)
      end
  | _ => acc
  end.

Ltac num_keys :=
  let l := num_vars (@nil num) in
  let M := fresh "M" in let HM := fresh "HM" in let HM0 := fresh "HM" in
  destruct (small_exists l) as (M & HM0 & HM);
  repeat (apply Forall_cons in HM as [? HM]); clear HM;
  assert (small M NegInf) by exact HM0;
  assert (small M PosInf) by exact HM0;
  repeat match goal with
         | |- context [num_ltb ?a ?b = true] =>
             rewrite (ltb_key M a b ltac:(assumption) ltac:(assumption))
         | |- context [num_ltb ?a ?b = false] =>
             rewrite (geb_key M a b ltac:(assumption) ltac:(assumption))
         | |- context [@eq num ?a ?b] =>
             rewrite (eq_key M a b ltac:(assumption) ltac:(assumption))
         | H : context [num_ltb ?a ?b = true] |- _ =>
             rewrite (ltb_key M a b ltac:(assumption) ltac:(assumption)) in H
         | H : context [num_ltb ?a ?b = false] |- _ =>
             rewrite (geb_key M a b ltac:(assumption) ltac:(assumption)) in H
         | H : context [@eq num ?a ?b] |- _ =>
             rewrite (eq_key M a b ltac:(assumption) ltac:(assumption)) in H
         end;
  repeat match goal with
         | Ha : small M _ |- _ => apply key_bound in Ha
         end.

Ltac num_names :=
  repeat match goal with
         | |- context [value ?r] =>
             let x := fresh "v" in set (x := value r) in *; clearbody x
         | _ : context [value ?r] |- _ =>
             let x := fresh "v" in set (x := value r) in *; clearbody x
         end.

Ltac num_lia :=
  num_names;
  unfold num_le, num_lt, num_leb, improves in *;
  rewrite ?negb_true_iff, ?negb_false_iff in *;
  num_split; try done; num_keys; simpl in *; try done; try lia.

(** ** Indexing *)

Lemma index_nat {A} (l : list A) (k : nat) :
  (k < length l)%nat → index l (Z.of_nat k) = Done k.
Proof.
  intros Hk. unfold index.
  destruct (Z.leb_spec 0 (Z.of_nat k)); [|lia].
  destruct (Z.ltb_spec (Z.of_nat k) (Z.of_nat (length l))); [|lia].
  simpl. by rewrite Nat2Z.id.
Qed.

Lemma getitem_nat {A} (l : list A) (k : nat) x :
  l !! k = Some x → getitem l (Z.of_nat k) = Done x.
Proof.
  intros Hk. unfold getitem.
  rewrite index_nat by by eapply lookup_lt_Some. simpl. by rewrite Hk.
Qed.

Lemma setitem_nat {A} (l : list A) (k : nat) x :
  (k < length l)%nat → setitem l (Z.of_nat k) x = Done (<[k:=x]> l).
Proof. intros Hk. unfold setitem. by rewrite index_nat. Qed.

Lemma index_Done {A} (l : list A) i k :
  index l i = Done k → (k < length l)%nat.
Proof.
  unfold index.
  destruct (Z.leb_spec 0 i), (Z.ltb_spec i (Z.of_nat (length l)));
    simpl; try (intros [= <-]; lia);
    destruct (Z.leb_spec (- Z.of_nat (length l)) i), (Z.ltb_spec i 0);
    simpl; try (intros [= <-]; lia); discriminate.
Qed.

Lemma index_insert {A} (l : list A) k x i :
  index (<[k:=x]> l) i = index l i.
Proof. unfold index. by rewrite length_insert. Qed.

(** ** free_spaces *)

Lemma elem_of_free_spaces g mv :
  mv ∈ free_spaces g ↔ ∃ k : nat, mv = Z.of_nat k ∧ grid g !! k = Some None.
Proof.
  unfold free_spaces, enumerate. rewrite list_elem_of_fmap. split.
  - intros [[i c] [-> [Hc Hin]%list_elem_of_filter]].
    apply elem_of_lookup_imap in Hin as (k & y & [= -> ->] & Hk).
    simpl in Hc. subst. eauto.
  - intros (k & -> & Hk). exists (Z.of_nat k, None). split; [done|].
    apply list_elem_of_filter. split; [done|].
    apply elem_of_lookup_imap. eauto.
Qed.

Lemma free_spaces_getitem g mv :
  mv ∈ free_spaces g → getitem (grid g) mv = Done None.
Proof. intros (k & -> & Hk)%elem_of_free_spaces. by apply getitem_nat. Qed.

(** ** place_marker followed by the undo *)

Lemma place_marker_free mv symbol g p :
  getitem (grid g) mv = Done None →
  place_marker mv symbol g = Done p →
  ∃ k w, index (grid g) mv = Done k ∧ grid g !! k = Some None ∧ p.1 = true ∧
         grid p.2 = <[k:=Some symbol]> (grid g) ∧
         victor p.2 = (if w : bool then Some symbol else victor g).
Proof.
  unfold place_marker, getitem, setitem. intros Hget.
  destruct (index (grid g) mv) as [k|] eqn:Hk; [|discriminate]. simpl in *.
  destruct (grid g !! k) as [c|] eqn:Hc; [|discriminate].
  injection Hget as ->. simpl.
  destruct (check_win _ _ _) as [w|] eqn:Hw; [|discriminate]. simpl.
  intros [= <-]. exists k, w. by destruct w.
Qed.

Lemma place_then_revert mv symbol g p :
  getitem (grid g) mv = Done None → victor g = None →
  place_marker mv symbol g = Done p →
  revert_move mv p.2 = Done g.
Proof.
  intros Hget Hv Hp.
  destruct (place_marker_free _ _ _ _ Hget Hp) as (k & w & Hk & Hc & _ & Hg & _).
  unfold revert_move, setitem. rewrite Hg, index_insert, Hk. simpl.
  rewrite list_insert_insert_eq, list_insert_id by done.
  destruct g; simpl in *; by subst.
Qed.

(** ** A call with no usable cache is a run without the store *)

#[global] Instance extends_refl : Reflexive extends.
Proof. by intros st. Qed.

#[global] Instance extends_trans : Transitive extends.
Proof.
  intros s1 s2 s3 (Hg1 & Hd1 & Hm1) (Hg2 & Hd2 & Hm2).
  split; [congruence|]. split; by etrans.
Qed.

Lemma prefix_insert_ge {A} (l1 l2 : list A) i x :
  l1 `prefix_of` l2 → (length l1 ≤ i)%nat → l1 `prefix_of` <[i:=x]> l2.
Proof.
  intros [k ->] Hi. rewrite insert_app_r_alt by done. by apply prefix_app_r.
Qed.

Lemma extends_with_game g st : extends (with_game (game st) (with_game g st)) st.
Proof. by destruct st. Qed.

Section fresh_try_move.
Context (recurse : state → outcome (nat * state)).
Context (prec : TicTacToe → outcome result).
Context (symbol : mark) (is_maximizing : bool) (m : nat).
Hypothesis recurse_fresh :
∀ st, memos st !! m = Some ∅ → runs_as (recurse st) st (prec (game st)).

Lemma try_move_fresh mv b best st :
memos st !! m = Some ∅ → dicts st !! b = Some best →
victor (game st) = None → getitem (grid (game st)) mv = Done None →
loops_as (try_move recurse symbol is_maximizing mv b st) st b
         (eval_move prec symbol is_maximizing mv best (game st)).
Proof.
intros Hm Hb Hv Hfree. unfold try_move, eval_move.
destruct (place_marker mv symbol (game st)) as [p|e] eqn:Hp; simpl; [|done].
assert (Hrec := recurse_fresh (with_game p.2 st) Hm). simpl in Hrec.
destruct (prec p.2) as [ro|e]; simpl in *; [|by rewrite Hrec].
destruct Hrec as (a & st1 & -> & (Hg1 & Hd1 & Hm1) & Ha & Hlen). simpl in *.
rewrite Hg1, (place_then_revert _ _ _ _ Hfree Hv Hp). simpl.
unfold set_move, read at 1. simpl. rewrite Ha. simpl.
assert (b < length (dicts st))%nat as Hblt by by eapply lookup_lt_Some.
assert (a < length (dicts st1))%nat as Halt by by eapply lookup_lt_Some.
unfold read. simpl.
rewrite list_lookup_insert_eq by done. simpl.
rewrite list_lookup_insert_ne by lia.
rewrite (prefix_lookup_Some _ _ _ _ Hb Hd1). simpl.
eexists _, _. split; [done|].
split; [|destruct (improves _ _ _); simpl].
- split; [done|]. split; [|done]. simpl. by apply prefix_insert_ge.
- split; [|by right]. by apply list_lookup_insert_eq.
- split; [|by left]. rewrite list_lookup_insert_ne by lia.
  by eapply prefix_lookup_Some.
Qed.

Lemma smart_loop_fresh moves : ∀ b best st,
memos st !! m = Some ∅ → dicts st !! b = Some best →
victor (game st) = None →
Forall (λ mv, getitem (grid (game st)) mv = Done None) moves →
loops_as (smart_loop recurse symbol is_maximizing moves b st) st b
         (minimax_loop prec symbol is_maximizing moves best (game st)).
Proof.
induction moves as [|mv rest IH]; intros b best st Hm Hb Hv Hfree; simpl.
- exists b, st. repeat split; eauto.
- apply Forall_cons in Hfree as [Hmv Hrest].
  assert (Hstep := try_move_fresh mv b best st Hm Hb Hv Hmv).
  destruct (eval_move _ _ _ _ _ _) as [r1|e]; simpl in *; [|by rewrite Hstep].
  destruct Hstep as (a1 & st1 & -> & Hext & Ha1 & Hb1). simpl.
  assert (Hext' := Hext). destruct Hext' as (Hg1 & Hd1 & Hm1).
  specialize (IH a1 r1 st1). rewrite Hg1 in IH.
  specialize (IH (prefix_lookup_Some _ _ _ _ Hm Hm1) Ha1 Hv Hrest).
  destruct (minimax_loop _ _ _ _ _ _) as [r2|e]; simpl in *; [|done].
  destruct IH as (a2 & st2 & -> & Hext2 & Ha2 & Hb2).
  exists a2, st2. split; [done|]. split; [by etrans|]. split; [done|].
  apply prefix_length in Hd1. lia.
Qed.
End fresh_try_move.

Section fresh_optimized_loop.
Context (recurse : num → num → state → outcome (nat * state)).
Context (prec : num → num → TicTacToe → outcome result).
Context (symbol : mark) (is_maximizing : bool) (m : nat).
Hypothesis recurse_fresh :
∀ alpha beta st, memos st !! m = Some ∅ →
  runs_as (recurse alpha beta st) st (prec alpha beta (game st)).

Lemma optimized_loop_fresh moves : ∀ b best alpha beta st,
memos st !! m = Some ∅ → dicts st !! b = Some best →
victor (game st) = None →
Forall (λ mv, getitem (grid (game st)) mv = Done None) moves →
loops_as (optimized_loop recurse symbol is_maximizing moves b alpha beta st) st b
         (alphabeta_loop prec symbol is_maximizing moves best alpha beta (game st)).
Proof.
induction moves as [|mv rest IH]; intros b best alpha beta st Hm Hb Hv Hfree; simpl.
- exists b, st. repeat split; eauto.
- apply Forall_cons in Hfree as [Hmv Hrest].
  assert (Hstep := try_move_fresh (recurse alpha beta) (prec alpha beta) symbol
                     is_maximizing m (recurse_fresh alpha beta) mv b best st
                     Hm Hb Hv Hmv).
  destruct (eval_move _ _ _ _ _ _) as [r1|e]; simpl in *; [|by rewrite Hstep].
  destruct Hstep as (a1 & st1 & -> & Hext & Ha1 & Hb1). simpl.
  unfold read. rewrite Ha1. simpl.
  destruct (num_leb _ _).
  { simpl. exists a1, st1. eauto. }
  assert (Hext' := Hext). destruct Hext' as (Hg1 & Hd1 & Hm1).
  match goal with
  | |- context [alphabeta_loop _ _ _ _ _ ?a ?b _] => specialize (IH a1 r1 a b st1)
  end.
  rewrite Hg1 in IH.
  specialize (IH (prefix_lookup_Some _ _ _ _ Hm Hm1) Ha1 Hv Hrest).
  destruct (alphabeta_loop _ _ _ _ _ _ _ _) as [r2|e]; simpl in *; [|done].
  destruct IH as (a2 & st2 & -> & Hext2 & Ha2 & Hb2).
  exists a2, st2. split; [done|]. split; [by etrans|]. split; [done|].
  apply prefix_length in Hd1. lia.
Qed.
End fresh_optimized_loop.

Lemma memory_or_new_fresh memory st :
  fresh memory st → memory_or_new memory st = Done (new_memo st).
Proof.
  destruct memory as [m|]; simpl; [|done].
  intros Hm. unfold memo_at. rewrite Hm. simpl. by rewrite decide_True.
Qed.

Lemma terminal_None player g :
  terminal player g = None → victor g = None ∧ has_space g = true.
Proof.
  unfold terminal, other. destruct (victor g) as [[]|], player, (has_space g);
    repeat case_decide; try done.
Qed.

(** After the lookup in a new dictionary misses, a terminal board is
    scored and any other board is searched by [loop]. *)
Lemma fresh_call memory st player is_maximizing
    (loop : nat → nat → state → outcome (nat * state)) (p : outcome result) :
  fresh memory st →
  (∀ r, terminal player (game st) = Some r → p = Done r) →
  (terminal player (game st) = None →
   ∀ st1, game st1 = game st → dicts st1 = dicts st ++ [worst is_maximizing] →
          memos st1 = memos st ++ [∅] →
          loops_as (loop (length (memos st)) (length (dicts st)) st1) st1
                   (length (dicts st)) p) →
  runs_as (ms <- memory_or_new memory st ;;
           d <- memo_at ms.1 ms.2 ;;
           match d !! grid (game ms.2) with
           | Some cached => Done (cached, ms.2)
           | None =>
               match terminal player (game ms.2) with
               | Some r => Done (new_dict r ms.2)
               | None =>
                   let bs := new_dict (worst is_maximizing) ms.2 in
                   r <- loop ms.1 bs.1 bs.2 ;;
                   st <- memo_store ms.1 (grid (game ms.2)) r.1 r.2 ;;
                   Done (r.1, st)
               end
           end) st p.
Proof.
  intros Hfresh Hterm Hloop. rewrite memory_or_new_fresh by done. simpl.
  unfold memo_at at 1. simpl. rewrite list_lookup_middle by done. simpl.
  rewrite lookup_empty.
  destruct (terminal player (game st)) as [r|] eqn:Ht.
  - rewrite (Hterm r eq_refl). simpl. eexists _, _. split; [done|]. simpl.
    repeat split; simpl; try done.
    + by apply prefix_app_r.
    + by apply prefix_app_r.
    + by apply list_lookup_middle.
  - specialize (Hloop eq_refl (new_dict (worst is_maximizing) (new_memo st).2).2
                  eq_refl eq_refl eq_refl). simpl in Hloop.
    destruct p as [r|e]; simpl in *; [|by rewrite Hloop].
    destruct Hloop as (a & st2 & -> & (Hg & Hd & Hm) & Ha & Hlen). simpl in *.
    assert (memos st2 !! length (memos st) = Some ∅) as Hm2.
    { eapply prefix_lookup_Some; [|done]. by apply list_lookup_middle. }
    unfold memo_store, memo_at. rewrite Hm2.
    simpl. eexists _, _. split; [done|]. simpl.
    rewrite length_app in Hlen. simpl in Hlen.
    repeat split; simpl; try done.
    + etrans; [|done]. by apply prefix_app_r.
    + apply prefix_insert_ge; [|done]. etrans; [|done]. by apply prefix_app_r.
    + lia.
Qed.

Lemma free_spaces_Forall g :
  Forall (λ mv, getitem (grid g) mv = Done None) (free_spaces g).
Proof. apply Forall_forall. intros mv. apply free_spaces_getitem. Qed.

(** [smart_move_finder] called with [memory] absent or empty returns a
    new dictionary that holds the result of [minimax], on the board it
    was given, and touches no object that existed before the call. *)
Lemma smart_move_finder_fresh fuel : ∀ is_maximizing player memory st,
  fresh memory st →
  runs_as (smart_move_finder fuel is_maximizing player memory st) st
          (minimax fuel is_maximizing player (game st)).
Proof.
  induction fuel as [|fuel IH]; intros is_maximizing player memory st Hfresh; [done|].
  cbn [smart_move_finder minimax].
  apply (fresh_call memory st player is_maximizing
           (λ m b st1, smart_loop (smart_move_finder fuel (negb is_maximizing) player (Some m))
                         (if is_maximizing then player else other player) is_maximizing
                         (free_spaces (game st1)) b st1)); [done|..].
  - by intros r ->.
  - intros Ht st1 Hg Hd Hm. rewrite Ht, <- Hg.
    apply (smart_loop_fresh _ (minimax fuel (negb is_maximizing) player) _ _
             (length (memos st))).
    + intros st2 Hm2. by apply IH.
    + rewrite Hm. by apply list_lookup_middle.
    + rewrite Hd. by apply list_lookup_middle.
    + rewrite Hg. by apply terminal_None in Ht as [? _].
    + apply free_spaces_Forall.
Qed.

(** The same for [optimized_move_finder] and [alphabeta], whatever the
    window. *)
Lemma optimized_move_finder_fresh fuel : ∀ is_maximizing player alpha beta memory st,
  fresh memory st →
  runs_as (optimized_move_finder fuel is_maximizing player alpha beta memory st) st
          (alphabeta fuel is_maximizing player alpha beta (game st)).
Proof.
  induction fuel as [|fuel IH]; intros is_maximizing player alpha beta memory st Hfresh;
    [done|].
  cbn [optimized_move_finder alphabeta].
  apply (fresh_call memory st player is_maximizing
           (λ m b st1, optimized_loop
                         (λ a b, optimized_move_finder fuel (negb is_maximizing) player a b
                                   (Some m))
                         (if is_maximizing then player else other player) is_maximizing
                         (free_spaces (game st1)) b alpha beta st1)); [done|..].
  - by intros r ->.
  - intros Ht st1 Hg Hd Hm. rewrite Ht, <- Hg.
    apply (optimized_loop_fresh _ (alphabeta fuel (negb is_maximizing) player) _ _
             (length (memos st))).
    + intros a b st2 Hm2. by apply IH.
    + rewrite Hm. by apply list_lookup_middle.
    + rewrite Hd. by apply list_lookup_middle.
    + rewrite Hg. by apply terminal_None in Ht as [? _].
    + apply free_spaces_Forall.
Qed.

(** ** Pruning does not change the result *)

(** One iteration on the maximizing side, at the cut and past it. *)
Lemma max_step_cut (alpha beta a vbm vba t v T : num) :
  num_lt alpha beta → num_lt a beta → a = num_max alpha vba →
  within alpha beta vbm vba → within a beta t v →
  num_leb beta (num_max a (num_max vba v)) = true →
  num_le (num_max vbm t) T →
  within alpha beta T (num_max vba v).
Proof. unfold within. intros. num_lia. Qed.

Lemma max_step_go (alpha beta a vbm vba t v : num) :
  num_lt alpha beta → num_lt a beta → a = num_max alpha vba →
  within alpha beta vbm vba → within a beta t v →
  num_leb beta (num_max a (num_max vba v)) = false →
  num_lt (num_max a (num_max vba v)) beta ∧
  num_max a (num_max vba v) = num_max alpha (num_max vba v) ∧
  within alpha beta (num_max vbm t) (num_max vba v).
Proof. unfold within. intros. num_lia. Qed.

(** The same on the minimizing side. *)
Lemma min_step_cut (alpha beta b vbm vba t v T : num) :
  num_lt alpha beta → num_lt alpha b → b = num_min beta vba →
  within alpha beta vbm vba → within alpha b t v →
  num_leb (num_min b (num_min vba v)) alpha = true →
  num_le T (num_min vbm t) →
  within alpha beta T (num_min vba v).
Proof. unfold within. intros. num_lia. Qed.

Lemma min_step_go (alpha beta b vbm vba t v : num) :
  num_lt alpha beta → num_lt alpha b → b = num_min beta vba →
  within alpha beta vbm vba → within alpha b t v →
  num_leb (num_min b (num_min vba v)) alpha = false →
  num_lt alpha (num_min b (num_min vba v)) ∧
  num_min b (num_min vba v) = num_min beta (num_min vba v) ∧
  within alpha beta (num_min vbm t) (num_min vba v).
Proof. unfold within. intros. num_lia. Qed.

(** At the root the window is open on the far side, and the search with
    pruning takes the same decision as the full one. *)
Lemma root_max_step (a t v : num) :
  num_lt a PosInf → within a PosInf t v →
  num_ltb a v = num_ltb a t ∧ (num_ltb a t = true → v = t) ∧
  num_max a (num_max a t) = num_max a t.
Proof.
  unfold within. intros. destruct (num_ltb a v) eqn:?, (num_ltb a t) eqn:?; num_lia.
Qed.

Lemma root_min_step (b t v : num) :
  num_lt NegInf b → within NegInf b t v →
  num_ltb v b = num_ltb t b ∧ (num_ltb t b = true → v = t) ∧
  num_min b (num_min b t) = num_min b t.
Proof.
  unfold within. intros. destruct (num_ltb v b) eqn:?, (num_ltb t b) eqn:?; num_lia.
Qed.

Lemma eval_move_Done recurse symbol is_maximizing mv best g b :
  eval_move recurse symbol is_maximizing mv best g = Done b →
  ∃ p o, place_marker mv symbol g = Done p ∧ recurse p.2 = Done o ∧
         b = (if improves is_maximizing (value o) (value best)
              then {| move := Some mv; value := value o |} else best).
Proof.
  unfold eval_move. intros (p & Hp & (o & Ho & [= <-])%bind_Done)%bind_Done.
  by exists p, o.
Qed.

Lemma value_improved (c : bool) mv v (best : result) :
  value (if c then {| move := Some mv; value := v |} else best) =
  if c then v else value best.
Proof. by destruct c. Qed.

Section pruning.
Context (prec : TicTacToe → outcome result).
Context (prec_ab : num → num → TicTacToe → outcome result).
Context (symbol : mark).
Hypothesis prec_within : ∀ alpha beta g r,
num_lt alpha beta → prec g = Done r →
∃ r', prec_ab alpha beta g = Done r' ∧ within alpha beta (value r) (value r').

Lemma minimax_loop_mono is_maximizing moves : ∀ best g r,
minimax_loop prec symbol is_maximizing moves best g = Done r →
if is_maximizing then num_le (value best) (value r)
else num_le (value r) (value best).
Proof.
induction moves as [|mv rest IH]; intros best g r; simpl.
- intros [= ->]. destruct is_maximizing; num_lia.
- intros (b & (p & o & _ & _ & ->)%eval_move_Done & Hr%IH)%bind_Done.
  rewrite value_improved in Hr. unfold improves in Hr.
  destruct is_maximizing; num_lia.
Qed.

Lemma alphabeta_loop_max moves : ∀ bm ba a alpha beta g r,
num_lt alpha beta → num_lt a beta → a = num_max alpha (value ba) →
within alpha beta (value bm) (value ba) →
minimax_loop prec symbol true moves bm g = Done r →
∃ r', alphabeta_loop prec_ab symbol true moves ba a beta g = Done r' ∧
      within alpha beta (value r) (value r').
Proof.
induction moves as [|mv rest IH]; intros bm ba a alpha beta g r Hab Ha Hmax Hin; simpl.
- intros [= <-]. eauto.
- intros (bm' & (p & o & Hp & Ho & ->)%eval_move_Done & Hr)%bind_Done.
  destruct (prec_within a beta _ _ Ha Ho) as (o' & Ho' & Hin').
  unfold eval_move. rewrite Hp. simpl. rewrite Ho'. simpl.
  rewrite value_improved. fold (num_max (value ba) (value o')).
  destruct (num_leb beta _) eqn:Hcut.
  + eexists. split; [done|]. rewrite value_improved.
    fold (num_max (value ba) (value o')).
    apply (minimax_loop_mono true) in Hr. rewrite value_improved in Hr.
    fold (num_max (value bm) (value o)) in Hr.
    by eapply max_step_cut.
  + destruct (max_step_go _ _ _ _ _ _ _ Hab Ha Hmax Hin Hin' Hcut) as (Ha' & Hmax' & Hin'').
    eapply IH; [done|done| | |done].
    * by rewrite value_improved.
    * by rewrite !value_improved.
Qed.

Lemma alphabeta_loop_min moves : ∀ bm ba b alpha beta g r,
num_lt alpha beta → num_lt alpha b → b = num_min beta (value ba) →
within alpha beta (value bm) (value ba) →
minimax_loop prec symbol false moves bm g = Done r →
∃ r', alphabeta_loop prec_ab symbol false moves ba alpha b g = Done r' ∧
      within alpha beta (value r) (value r').
Proof.
induction moves as [|mv rest IH]; intros bm ba b alpha beta g r Hab Hb Hmin Hin; simpl.
- intros [= <-]. eauto.
- intros (bm' & (p & o & Hp & Ho & ->)%eval_move_Done & Hr)%bind_Done.
  destruct (prec_within alpha b _ _ Hb Ho) as (o' & Ho' & Hin').
  unfold eval_move. rewrite Hp. simpl. rewrite Ho'. simpl.
  rewrite value_improved. fold (num_min (value ba) (value o')).
  destruct (num_leb _ alpha) eqn:Hcut.
  + eexists. split; [done|]. rewrite value_improved.
    fold (num_min (value ba) (value o')).
    apply (minimax_loop_mono false) in Hr. rewrite value_improved in Hr.
    fold (num_min (value bm) (value o)) in Hr.
    by eapply min_step_cut.
  + destruct (min_step_go _ _ _ _ _ _ _ Hab Hb Hmin Hin Hin' Hcut) as (Hb' & Hmin' & Hin'').
    eapply IH; [done|done| | |done].
    * by rewrite value_improved.
    * by rewrite !value_improved.
Qed.

Lemma minimax_loop_top moves : ∀ best g r,
value best = PosInf →
minimax_loop prec symbol true moves best g = Done r → r = best.
Proof.
induction moves as [|mv rest IH]; intros best g r Hb; simpl.
- by intros [= ->].
- intros (b & (p & o & _ & _ & ->)%eval_move_Done & Hr)%bind_Done.
  unfold improves in Hr. rewrite Hb in Hr.
  replace (num_ltb PosInf (value o)) with false in Hr by by destruct (value o).
  by eapply IH.
Qed.

Lemma minimax_loop_bottom moves : ∀ best g r,
value best = NegInf →
minimax_loop prec symbol false moves best g = Done r → r = best.
Proof.
induction moves as [|mv rest IH]; intros best g r Hb; simpl.
- by intros [= ->].
- intros (b & (p & o & _ & _ & ->)%eval_move_Done & Hr)%bind_Done.
  unfold improves in Hr. rewrite Hb in Hr.
  replace (num_ltb (value o) NegInf) with false in Hr by by destruct (value o).
  by eapply IH.
Qed.

Lemma alphabeta_loop_root_max moves : ∀ best g r,
num_lt (value best) PosInf →
minimax_loop prec symbol true moves best g = Done r →
alphabeta_loop prec_ab symbol true moves best (value best) PosInf g = Done r.
Proof.
induction moves as [|mv rest IH]; intros best g r Hlt; simpl; [done|].
intros (bm' & (p & o & Hp & Ho & ->)%eval_move_Done & Hr)%bind_Done.
destruct (prec_within _ _ _ _ Hlt Ho) as (o' & Ho' & Hin).
destruct (root_max_step _ _ _ Hlt Hin) as (Hsame & Heq & Hmax).
unfold eval_move. rewrite Hp. simpl. rewrite Ho'. simpl.
unfold improves in *. rewrite Hsame.
assert ((if num_ltb (value best) (value o)
         then {| move := Some mv; value := value o' |} else best) =
        (if num_ltb (value best) (value o)
         then {| move := Some mv; value := value o |} else best)) as ->.
{ destruct (num_ltb _ (value o)); [|done]. by rewrite Heq. }
set (b' := if num_ltb _ _ then _ else _) in *.
assert (value b' = num_max (value best) (value o)) as Hb'.
{ unfold b'. by rewrite value_improved. }
rewrite Hb', Hmax, <- Hb'.
destruct (num_leb PosInf (value b')) eqn:Hcut.
- f_equal. symmetry. eapply minimax_loop_top; [|done].
  clear -Hcut. destruct (value b'); done.
- apply IH; [|done]. clear -Hcut. destruct (value b'); done.
Qed.

Lemma alphabeta_loop_root_min moves : ∀ best g r,
num_lt NegInf (value best) →
minimax_loop prec symbol false moves best g = Done r →
alphabeta_loop prec_ab symbol false moves best NegInf (value best) g = Done r.
Proof.
induction moves as [|mv rest IH]; intros best g r Hlt; simpl; [done|].
intros (bm' & (p & o & Hp & Ho & ->)%eval_move_Done & Hr)%bind_Done.
destruct (prec_within _ _ _ _ Hlt Ho) as (o' & Ho' & Hin).
destruct (root_min_step _ _ _ Hlt Hin) as (Hsame & Heq & Hmin).
unfold eval_move. rewrite Hp. simpl. rewrite Ho'. simpl.
unfold improves in *. rewrite Hsame.
assert ((if num_ltb (value o) (value best)
         then {| move := Some mv; value := value o' |} else best) =
        (if num_ltb (value o) (value best)
         then {| move := Some mv; value := value o |} else best)) as ->.
{ destruct (num_ltb (value o) _); [|done]. by rewrite Heq. }
set (b' := if num_ltb _ _ then _ else _) in *.
assert (value b' = num_min (value best) (value o)) as Hb'.
{ unfold b'. by rewrite value_improved. }
rewrite Hb', Hmin, <- Hb'.
destruct (num_leb (value b') NegInf) eqn:Hcut.
- f_equal. symmetry. eapply minimax_loop_bottom; [|done].
  clear -Hcut. destruct (value b'); done.
- apply IH; [|done]. clear -Hcut. destruct (value b'); done.
Qed.
End pruning.

(** Whatever the window, the pruned search returns when the full one
    does, with a value inside the bounds of [within]. *)
Lemma alphabeta_within fuel : ∀ is_maximizing player alpha beta g r,
  num_lt alpha beta →
  minimax fuel is_maximizing player g = Done r →
  ∃ r', alphabeta fuel is_maximizing player alpha beta g = Done r' ∧
        within alpha beta (value r) (value r').
Proof.
  induction fuel as [|fuel IH]; intros is_maximizing player alpha beta g r Hab; [done|].
  simpl. destruct (terminal player g) as [t|].
  - intros [= ->]. eexists. split; [done|]. unfold within. num_lia.
  - destruct is_maximizing; simpl.
    + apply alphabeta_loop_max with (alpha := alpha); try done;
        first [ by intros; apply IH | simpl; unfold within; num_lia ].
    + apply alphabeta_loop_min with (beta := beta); try done;
        first [ by intros; apply IH | simpl; unfold within; num_lia ].
Qed.

(** With the window fully open the two searches return the same
    dictionary contents, move included. *)
Lemma alphabeta_minimax fuel is_maximizing player g r :
  minimax fuel is_maximizing player g = Done r →
  alphabeta fuel is_maximizing player NegInf PosInf g = Done r.
Proof.
  destruct fuel as [|fuel]; [done|]. simpl.
  destruct (terminal player g) as [t|]; [done|].
  destruct is_maximizing; simpl.
  - apply (alphabeta_loop_root_max _ _ _ (alphabeta_within fuel false player)
             _ (worst true)). done.
  - apply (alphabeta_loop_root_min _ _ _ (alphabeta_within fuel true player)
             _ (worst false)). done.
Qed.

(** ** Boards of nine cells: the search returns *)

Lemma index_in_range {A} (l : list A) i :
  - Z.of_nat (length l) ≤ i < Z.of_nat (length l) →
  ∃ k, index l i = Done k ∧ (k < length l)%nat ∧
       Z.of_nat k = (if 0 <=? i then i else i + Z.of_nat (length l)).
Proof.
  intros Hi. unfold index.
  destruct (Z.leb_spec 0 i); simpl.
  - destruct (Z.ltb_spec i (Z.of_nat (length l))); [|lia].
    exists (Z.to_nat i). split; [done|]. lia.
  - destruct (Z.leb_spec (- Z.of_nat (length l)) i); [|lia].
    destruct (Z.ltb_spec i 0); [|lia]. simpl.
    exists (Z.to_nat (i + Z.of_nat (length l))). split; [done|]. lia.
Qed.

Lemma getitem_in_range {A} (l : list A) i :
  - Z.of_nat (length l) ≤ i < Z.of_nat (length l) → ∃ x, getitem l i = Done x.
Proof.
  intros (k & Hk & Hlt & _)%index_in_range. unfold getitem. rewrite Hk. simpl.
  destruct (lookup_lt_is_Some_2 l k Hlt) as [x ->]. eauto.
Qed.

Lemma all_marked_in_range g symbol idxs :
  Forall (λ i, - Z.of_nat (length g) ≤ i < Z.of_nat (length g)) idxs →
  ∃ b, all_marked g symbol idxs = Done b.
Proof.
  induction 1 as [|i idxs Hi _ IH]; simpl; [eauto|].
  destruct (getitem_in_range g i Hi) as [c ->]. simpl.
  case_decide; eauto.
Qed.

Lemma check_win_in_range pos symbol g :
  well_formed g → -9 ≤ pos < 9 → ∃ w, check_win pos symbol g = Done w.
Proof.
  unfold well_formed, check_win. intros Hwf Hpos.
  assert (∀ idxs, Forall (λ i, -9 ≤ i < 9) idxs →
                  ∃ b, all_marked (grid g) symbol idxs = Done b) as Hall.
  { intros idxs Hidxs. apply all_marked_in_range. by rewrite Hwf. }
  destruct (Hall ((λ col, pos `div` 3 * 3 + col) <$> range3)) as [r ->].
  { unfold range3. simpl. repeat (apply Forall_cons; split; [Z.div_mod_to_equations; lia|]).
    done. }
  cbn [bind]. destruct r; [eauto|].
  destruct (Hall ((λ row, pos `mod` 3 + row * 3) <$> range3)) as [c ->].
  { unfold range3. simpl. repeat (apply Forall_cons; split; [Z.div_mod_to_equations; lia|]).
    done. }
  cbn [bind]. destruct c; [eauto|].
  destruct (pos `mod` 2 =? 0); [|eauto].
  destruct (Hall [0; 4; 8]) as [d ->]; [repeat (apply Forall_cons; split; [lia|]); done|].
  cbn [bind]. destruct d; [eauto|].
  destruct (Hall [2; 4; 6]) as [a ->]; [repeat (apply Forall_cons; split; [lia|]); done|].
  cbn [bind]. destruct a; eauto.
Qed.

Lemma count_insert (l : list cell) k symbol :
  l !! k = Some None →
  S (length (filter (λ c, c = None) (<[k:=Some symbol]> l))) =
  length (filter (λ c, c = None) l).
Proof.
  revert k. induction l as [|c l IH]; intros [|k]; simpl; try done.
  - intros [= ->]. rewrite filter_cons_False by done. by rewrite filter_cons_True.
  - intros Hk. destruct c as [m|].
    + rewrite !filter_cons_False by done. by apply IH.
    + rewrite !filter_cons_True by done. simpl. f_equal. by apply IH.
Qed.

Lemma place_marker_nat k symbol g :
  well_formed g → grid g !! k = Some None →
  ∃ w : bool, place_marker (Z.of_nat k) symbol g =
    Done (true, {| grid := <[k:=Some symbol]> (grid g);
                   victor := if w then Some symbol else victor g |}).
Proof.
  intros Hwf Hk.
  assert (k < 9)%nat as Hlt by (rewrite <- Hwf; by eapply lookup_lt_Some).
  destruct (check_win_in_range (Z.of_nat k) symbol
              {| grid := <[k:=Some symbol]> (grid g); victor := victor g |})
    as [w Hw]; [|lia|].
  { unfold well_formed. simpl. by rewrite length_insert. }
  exists w. unfold place_marker. rewrite (getitem_nat (grid g) k None Hk).
  cbn [bind]. rewrite decide_True by done.
  rewrite setitem_nat by by rewrite Hwf. cbn [bind]. rewrite Hw. cbn [bind].
  by destruct w.
Qed.

Lemma place_marker_well_formed mv symbol g :
  well_formed g → mv ∈ free_spaces g →
  ∃ p, place_marker mv symbol g = Done p ∧ well_formed p.2 ∧
       count_free p.2 = count_free g - 1.
Proof.
  intros Hwf (k & -> & Hk)%elem_of_free_spaces.
  destruct (place_marker_nat k symbol g Hwf Hk) as [w ->].
  eexists. split; [done|].
  unfold well_formed, count_free. simpl.
  pose proof (count_insert (grid g) k symbol Hk).
  rewrite length_insert. split; [done|lia].
Qed.

Lemma minimax_loop_returns recurse symbol is_maximizing g moves : ∀ best,
  Forall (λ mv, ∃ p, place_marker mv symbol g = Done p ∧
                     ∃ o, recurse p.2 = Done o) moves →
  ∃ r, minimax_loop recurse symbol is_maximizing moves best g = Done r.
Proof.
  induction moves as [|mv rest IH]; intros best Hall; simpl; [eauto|].
  apply Forall_cons in Hall as [(p & Hp & o & Ho) Hrest].
  unfold eval_move. rewrite Hp. simpl. rewrite Ho. simpl. by apply IH.
Qed.

(** On a board of nine cells the search needs one unit of fuel per empty
    cell and one more. *)
Lemma minimax_returns fuel : ∀ is_maximizing player g,
  well_formed g → count_free g < Z.of_nat fuel →
  ∃ r, minimax fuel is_maximizing player g = Done r.
Proof.
  induction fuel as [|fuel IH]; intros is_maximizing player g Hwf Hfuel.
  { unfold count_free in Hfuel. lia. }
  simpl. destruct (terminal player g) as [t|]; [eauto|].
  apply minimax_loop_returns, Forall_forall. intros mv Hmv.
  destruct (place_marker_well_formed mv
              (if is_maximizing then player else other player) g Hwf Hmv)
    as (p & Hp & Hwf' & Hcount).
  exists p. split; [done|]. apply IH; [done|lia].
Qed.

Lemma count_free_bound g : well_formed g → 0 ≤ count_free g ≤ 9.
Proof.
  unfold well_formed, count_free. intros Hwf.
  pose proof (length_filter (λ c : cell, c = None) (grid g)). lia.
Qed.

(** ** Boards the interface can produce *)

Lemma place_marker_length pos symbol g p :
  place_marker pos symbol g = Done p → length (grid p.2) = length (grid g).
Proof.
  unfold place_marker, setitem.
  intros (c & _ & Hp)%bind_Done. case_decide; [|by injection Hp as <-].
  apply bind_Done in Hp as (g' & (k & _ & [= <-])%bind_Done & Hp).
  apply bind_Done in Hp as (w & _ & [= <-]).
  destruct w; simpl; by rewrite length_insert.
Qed.

Lemma reachable_well_formed g : reachable g → well_formed g.
Proof.
  induction 1 as [|g pos symbol p _ IH _ Hp]; [done|].
  unfold well_formed in *. by rewrite (place_marker_length _ _ _ _ Hp).
Qed.

(** * The claims *)

Lemma searches_agree_well_formed g is_maximizing player fuel m1 m2 st :
  well_formed g → game st = g → (10 ≤ fuel)%nat →
  fresh m1 st → fresh m2 st →
  ∃ r a st1 b st2,
    smart_move_finder fuel is_maximizing player m1 st = Done (a, st1) ∧
    optimized_move_finder fuel is_maximizing player NegInf PosInf m2 st = Done (b, st2) ∧
    dicts st1 !! a = Some r ∧ dicts st2 !! b = Some r ∧
    game st1 = g ∧ game st2 = g.
Proof.
  intros Hwf <- Hfuel Hm1 Hm2.
  destruct (minimax_returns fuel is_maximizing player (game st) Hwf) as [r Hr].
  { pose proof (count_free_bound _ Hwf). lia. }
  assert (Hab := alphabeta_minimax _ _ _ _ _ Hr).
  assert (H1 := smart_move_finder_fresh fuel is_maximizing player m1 st Hm1).
  assert (H2 := optimized_move_finder_fresh fuel is_maximizing player NegInf PosInf
                  m2 st Hm2).
  rewrite Hr in H1. rewrite Hab in H2.
  destruct H1 as (a & st1 & E1 & (Hg1 & _) & Ha & _).
  destruct H2 as (b & st2 & E2 & (Hg2 & _) & Hb & _).
  by exists r, a, st1, b, st2.
Qed.

(** C1.  On every board reachable by play, and for either mark and either
    side to move, [smart_move_finder] and [optimized_move_finder] (window
    [-inf], [+inf]), each called with no cache or an empty one, both
    return, and the dictionaries they return hold the same ['move'] and the
    same ['value']. *)
Theorem C1_searches_agree g is_maximizing player fuel m1 m2 st :
  reachable g → game st = g → (10 ≤ fuel)%nat →
  fresh m1 st → fresh m2 st →
  ∃ r a st1 b st2,
    smart_move_finder fuel is_maximizing player m1 st = Done (a, st1) ∧
    optimized_move_finder fuel is_maximizing player NegInf PosInf m2 st = Done (b, st2) ∧
    dicts st1 !! a = Some r ∧ dicts st2 !! b = Some r.
Proof.
  intros Hg%reachable_well_formed Hst Hfuel Hm1 Hm2.
  destruct (searches_agree_well_formed g is_maximizing player fuel m1 m2 st)
    as (r & a & st1 & b & st2 & ? & ? & ? & ? & _); try done.
  by exists r, a, st1, b, st2.
Qed.

Lemma C1_searches_agree_witness :
  ∃ r a st1 b st2,
    smart_move_finder 10 true X None (start new_game) = Done (a, st1) ∧
    optimized_move_finder 10 true X NegInf PosInf None (start new_game) = Done (b, st2) ∧
    dicts st1 !! a = Some r ∧ dicts st2 !! b = Some r.
Proof.
  apply (C1_searches_agree new_game true X 10 None None (start new_game)).
  - apply reachable_new.
  - reflexivity.
  - lia.
  - exact I.
  - exact I.
Defined.

(** ** More fuel changes nothing *)

Lemma minimax_loop_ext rec1 rec2 symbol is_maximizing moves :
  (∀ g r, rec1 g = Done r → rec2 g = Done r) →
  ∀ best g r,
    minimax_loop rec1 symbol is_maximizing moves best g = Done r →
    minimax_loop rec2 symbol is_maximizing moves best g = Done r.
Proof.
  intros Hrec. induction moves as [|mv rest IH]; intros best g r; simpl; [done|].
  intros (b & (p & o & Hp & Ho & ->)%eval_move_Done & Hr)%bind_Done.
  unfold eval_move. rewrite Hp. simpl. rewrite (Hrec _ _ Ho). simpl. by apply IH.
Qed.

Lemma minimax_fuel fuel : ∀ fuel' is_maximizing player g r,
  (fuel ≤ fuel')%nat →
  minimax fuel is_maximizing player g = Done r →
  minimax fuel' is_maximizing player g = Done r.
Proof.
  induction fuel as [|fuel IH]; intros fuel' is_maximizing player g r Hle; [done|].
  destruct fuel' as [|fuel']; [lia|]. simpl.
  destruct (terminal player g); [done|].
  apply minimax_loop_ext. intros g' r'. apply IH. lia.
Qed.

(** What [minimax] computes with some fuel is what both procedures
    return, with that fuel or more, when they are called without a
    usable cache. *)
Lemma smart_move_finder_computes fuel0 fuel is_maximizing player memory st r :
  minimax fuel0 is_maximizing player (game st) = Done r →
  (fuel0 ≤ fuel)%nat → fresh memory st →
  ∃ a st', smart_move_finder fuel is_maximizing player memory st = Done (a, st') ∧
           dicts st' !! a = Some r ∧ game st' = game st.
Proof.
  intros Hr Hle Hm. apply (minimax_fuel _ fuel) in Hr; [|done].
  assert (H := smart_move_finder_fresh fuel is_maximizing player memory st Hm).
  rewrite Hr in H. destruct H as (a & st' & ? & (? & _) & ? & _). eauto.
Qed.

Lemma optimized_move_finder_computes fuel0 fuel is_maximizing player memory st r :
  minimax fuel0 is_maximizing player (game st) = Done r →
  (fuel0 ≤ fuel)%nat → fresh memory st →
  ∃ a st', optimized_move_finder fuel is_maximizing player NegInf PosInf memory st
             = Done (a, st') ∧
           dicts st' !! a = Some r ∧ game st' = game st.
Proof.
  intros Hr Hle Hm. apply (minimax_fuel _ fuel) in Hr; [|done].
  apply alphabeta_minimax in Hr.
  assert (H := optimized_move_finder_fresh fuel is_maximizing player NegInf PosInf
                 memory st Hm).
  rewrite Hr in H. destruct H as (a & st' & ? & (? & _) & ? & _). eauto.
Qed.

(** ** C2 *)

(** A dictionary that is empty when it is passed to a call is empty when
    the call returns: the callee has replaced it by one of its own, and
    the caller sees none of the entries written below it. *)
Lemma empty_cache_stays_empty fuel is_maximizing player alpha beta m st a st' :
  memos st !! m = Some ∅ →
  smart_move_finder fuel is_maximizing player (Some m) st = Done (a, st') ∨
  optimized_move_finder fuel is_maximizing player alpha beta (Some m) st = Done (a, st') →
  memos st' !! m = Some ∅.
Proof.
  intros Hm [Hrun|Hrun].
  - assert (H := smart_move_finder_fresh fuel is_maximizing player (Some m) st Hm).
    destruct (minimax _ _ _ _); simpl in H; [|congruence].
    destruct H as (a' & st'' & E & (_ & _ & Hpre) & _).
    rewrite Hrun in E. injection E as <- <-. by eapply prefix_lookup_Some.
  - assert (H := optimized_move_finder_fresh fuel is_maximizing player alpha beta
                   (Some m) st Hm).
    destruct (alphabeta _ _ _ _ _ _); simpl in H; [|congruence].
    destruct H as (a' & st'' & E & (_ & _ & Hpre) & _).
    rewrite Hrun in E. injection E as <- <-. by eapply prefix_lookup_Some.
Qed.

(** C2 (the code at a failing input).  [smart_move_finder(game, True, 'X')]
    on [transposing_board]: when the call returns, the dictionary it used
    as [memory] (the first one allocated) holds the entry of the root
    position and nothing else, and the position [transposed_grid], met
    twice below the root, was searched twice, its result stored once in the
    thirteenth dictionary and once in the twenty-fifth. *)
Theorem C2_cache_not_shared :
  ∃ a st', smart_move_finder 10 true X None (start transposing_board) = Done (a, st') ∧
    map_to_list <$> memos st' !! 0%nat = Some [(grid transposing_board, a)] ∧
    map_to_list <$> memos st' !! 12%nat = Some [(transposed_grid, 13%nat)] ∧
    map_to_list <$> memos st' !! 24%nat = Some [(transposed_grid, 25%nat)].
Proof.
  set (run := smart_move_finder 10 true X None (start transposing_board)).
  assert (match run with
          | Done (a, st') =>
              Some (a, map_to_list <$> memos st' !! 0%nat,
                    map_to_list <$> memos st' !! 12%nat,
                    map_to_list <$> memos st' !! 24%nat)
          | Raise _ => None
          end = Some (3%nat, Some [(grid transposing_board, 3%nat)],
                      Some [(transposed_grid, 13%nat)],
                      Some [(transposed_grid, 25%nat)])) as H.
  { vm_compute. reflexivity. }
  destruct run as [[a st']|]; [|discriminate].
  injection H as -> H0 H12 H24. by exists 3%nat, st'.
Qed.

(** ** C3 *)

(** C3 (as stated, refuted).  On [row_to_complete] the call does not
    return move 2 with value 7. *)
Lemma C3_value_is_not_7 :
  ¬ ∃ a st', smart_move_finder 10 true X None (start row_to_complete) = Done (a, st') ∧
             dicts st' !! a = Some {| move := Some 2; value := Int 7 |}.
Proof.
  set (run := smart_move_finder 10 true X None (start row_to_complete)).
  assert (match run with
          | Done (a, st') => dicts st' !! a
          | Raise _ => None
          end = Some {| move := Some 2; value := Int 5 |}) as H.
  { vm_compute. reflexivity. }
  intros (a & st' & E & Ha). rewrite E in H. congruence.
Qed.

(** C3 (amended).  On the board with X on 0 and 1, O on 3 and 4 and the
    rest empty, both searches, maximizing for X, return move 2 with value
    5: four cells are empty once X has completed the row, and the win is
    scored 4 + 1. *)
Theorem C3_row_completed fuel m1 m2 st :
  game st = row_to_complete → (6 ≤ fuel)%nat → fresh m1 st → fresh m2 st →
  (∃ a st', smart_move_finder fuel true X m1 st = Done (a, st') ∧
            dicts st' !! a = Some {| move := Some 2; value := Int 5 |}) ∧
  (∃ a st', optimized_move_finder fuel true X NegInf PosInf m2 st = Done (a, st') ∧
            dicts st' !! a = Some {| move := Some 2; value := Int 5 |}).
Proof.
  intros Hg Hfuel Hm1 Hm2.
  assert (minimax 6 true X (game st) = Done {| move := Some 2; value := Int 5 |}) as Hr.
  { rewrite Hg. vm_compute. reflexivity. }
  split.
  - destruct (smart_move_finder_computes _ fuel _ _ m1 _ _ Hr Hfuel Hm1)
      as (a & st' & ? & ? & _). eauto.
  - destruct (optimized_move_finder_computes _ fuel _ _ m2 _ _ Hr Hfuel Hm2)
      as (a & st' & ? & ? & _). eauto.
Qed.

Lemma C3_row_completed_witness :
  (∃ a st', smart_move_finder 6 true X None (start row_to_complete) = Done (a, st') ∧
            dicts st' !! a = Some {| move := Some 2; value := Int 5 |}) ∧
  (∃ a st', optimized_move_finder 6 true X NegInf PosInf None (start row_to_complete)
              = Done (a, st') ∧
            dicts st' !! a = Some {| move := Some 2; value := Int 5 |}).
Proof.
  apply (C3_row_completed 6 None None (start row_to_complete)).
  - reflexivity.
  - lia.
  - exact I.
  - exact I.
Defined.

(** ** C4 *)

(** C4 (as stated, refuted).  With X on 1 and 7, X on 4 completes the
    middle column and the winner is set. *)
Lemma C4_column_1_4_7_wins :
  ¬ ((∃ p, place_marker 4 X corners_0_8 = Done p ∧ victor p.2 = Some X) ∧
     (∃ p, place_marker 4 X edges_1_7 = Done p ∧ victor p.2 = None)).
Proof.
  assert (place_marker 4 X edges_1_7 =
          Done (true, board None (Some X) None None (Some X) None None (Some X) None
                        (Some X))) as H by (vm_compute; reflexivity).
  intros [_ (p & Hp & Hv)]. rewrite H in Hp. injection Hp as <-. done.
Qed.

(** C4 (amended).  Placing X on 4 sets the winner to X on the board where
    X holds 0 and 8 (the diagonal) and also on the board where X holds 1
    and 7 (the middle column). *)
Theorem C4_center_completes_line :
  (∃ p, place_marker 4 X corners_0_8 = Done p ∧ p.1 = true ∧ victor p.2 = Some X) ∧
  (∃ p, place_marker 4 X edges_1_7 = Done p ∧ p.1 = true ∧ victor p.2 = Some X).
Proof. split; eexists; (split; [vm_compute; reflexivity|done]). Qed.

(** ** C6 *)

Lemma miss_terminal_call memory st player is_maximizing r
    (loop : nat → nat → state → outcome (nat * state)) :
  misses memory st → terminal player (game st) = Some r →
  ∃ st',
    (ms <- memory_or_new memory st ;;
     d <- memo_at ms.1 ms.2 ;;
     match d !! grid (game ms.2) with
     | Some cached => Done (cached, ms.2)
     | None =>
         match terminal player (game ms.2) with
         | Some r => Done (new_dict r ms.2)
         | None =>
             let bs := new_dict (worst is_maximizing) ms.2 in
             r <- loop ms.1 bs.1 bs.2 ;;
             st <- memo_store ms.1 (grid (game ms.2)) r.1 r.2 ;;
             Done (r.1, st)
         end
     end) = Done (length (dicts st), st') ∧
    dicts st' !! length (dicts st) = Some r ∧ game st' = game st.
Proof.
  intros Hmiss Hterm.
  assert (∃ ms, memory_or_new memory st = Done ms ∧ game ms.2 = game st ∧
                dicts ms.2 = dicts st ∧
                ∃ d, memo_at ms.1 ms.2 = Done d ∧ d !! grid (game st) = None)
    as (ms & -> & Hg & Hd & d & Hat & Hkey).
  { destruct memory as [m|]; simpl.
    - destruct Hmiss as (d & Hm & Hd). unfold memo_at at 1. rewrite Hm. simpl.
      case_decide; eexists; (split; [done|]); simpl; repeat split.
      + exists ∅. unfold memo_at. simpl. by rewrite list_lookup_middle.
      + exists d. unfold memo_at. by rewrite Hm.
    - eexists. split; [done|]. simpl. repeat split.
      exists ∅. unfold memo_at. simpl. by rewrite list_lookup_middle. }
  simpl. rewrite Hat. simpl. rewrite Hg, Hkey, Hterm.
  unfold new_dict. rewrite Hd. eexists. split; [done|]. simpl.
  split; [|done]. by apply list_lookup_middle.
Qed.

(** C6.  Terminal scoring, for both searches and whatever [memory] is as
    long as the board has no entry in it: with [r] empty cells the call
    returns a new dictionary [{'move': None, 'value': v}] where [v] is
    [r + 1] if the winner is [player], [-(r + 1)] if it is the opponent,
    and [0] if nobody has won and no cell is empty.  So a win with three
    empty cells is worth 4 and a loss with five is worth -6. *)
Theorem C6_terminal_scoring fuel is_maximizing player alpha beta memory st r :
  misses memory st → count_free (game st) = r →
  let scores v :=
    (∃ a st', smart_move_finder (S fuel) is_maximizing player memory st = Done (a, st') ∧
              dicts st' !! a = Some {| move := None; value := Int v |}) ∧
    (∃ a st', optimized_move_finder (S fuel) is_maximizing player alpha beta memory st
                = Done (a, st') ∧
              dicts st' !! a = Some {| move := None; value := Int v |}) in
  (victor (game st) = Some player → scores (r + 1)) ∧
  (victor (game st) = Some (other player) → scores (- (r + 1))) ∧
  (victor (game st) = None → has_space (game st) = false → scores 0) ∧
  (r = 3 → victor (game st) = Some player → scores 4) ∧
  (r = 5 → victor (game st) = Some (other player) → scores (-6)).
Proof.
  intros Hmiss Hr scores.
  assert (∀ v, terminal player (game st) = Some {| move := None; value := Int v |} →
               scores v) as Hscores.
  { intros v Hterm. split; cbn [smart_move_finder optimized_move_finder].
    - destruct (miss_terminal_call memory st player is_maximizing _
                  (λ m b st1, smart_loop
                     (smart_move_finder fuel (negb is_maximizing) player (Some m))
                     (if is_maximizing then player else other player) is_maximizing
                     (free_spaces (game st1)) b st1) Hmiss Hterm)
        as (st' & E & Hd & _).
      exists (length (dicts st)), st'. by split.
    - destruct (miss_terminal_call memory st player is_maximizing _
                  (λ m b st1, optimized_loop
                     (λ a b, optimized_move_finder fuel (negb is_maximizing) player a b
                               (Some m))
                     (if is_maximizing then player else other player) is_maximizing
                     (free_spaces (game st1)) b alpha beta st1) Hmiss Hterm)
        as (st' & E & Hd & _).
      exists (length (dicts st)), st'. by split. }
  assert (victor (game st) = Some player → scores (r + 1)) as Hwin.
  { intros Hv. apply Hscores. unfold terminal. rewrite decide_True by done.
    do 2 f_equal. f_equal. lia. }
  assert (victor (game st) = Some (other player) → scores (- (r + 1))) as Hloss.
  { intros Hv. apply Hscores. unfold terminal.
    rewrite decide_False by (rewrite Hv; destruct player; done).
    rewrite decide_True by done. do 2 f_equal. f_equal. lia. }
  split; [done|]. split; [done|]. split.
  { intros Hv Hfull. apply Hscores. unfold terminal.
    rewrite !decide_False by (by rewrite Hv). by rewrite Hfull. }
  split; intros -> Hv; [by apply Hwin | by apply Hloss].
Qed.

Lemma C6_terminal_scoring_witness :
  let scores v :=
    (∃ a st', smart_move_finder 1 true O None (start won_with_three_left) = Done (a, st') ∧
              dicts st' !! a = Some {| move := None; value := Int v |}) ∧
    (∃ a st', optimized_move_finder 1 true O NegInf PosInf None
                (start won_with_three_left) = Done (a, st') ∧
              dicts st' !! a = Some {| move := None; value := Int v |}) in
  (victor won_with_three_left = Some O → scores (3 + 1)) ∧
  (victor won_with_three_left = Some (other O) → scores (- (3 + 1))) ∧
  (victor won_with_three_left = None → has_space won_with_three_left = false → scores 0) ∧
  (3 = 3 → victor won_with_three_left = Some O → scores 4) ∧
  (3 = 5 → victor won_with_three_left = Some (other O) → scores (-6)).
Proof.
  apply (C6_terminal_scoring 0 true O NegInf PosInf None (start won_with_three_left) 3).
  - exact I.
  - reflexivity.
Defined.

(** ** C7 *)

(** C7 (as stated, refuted).  On a board whose winner is set, placing a
    mark on an empty cell and undoing it leaves the winner cleared. *)
Lemma C7_undo_clears_winner :
  getitem (grid won_by_X) 8 = Done None ∧
  ∃ p g', place_marker 8 O won_by_X = Done p ∧ revert_move 8 p.2 = Done g' ∧
          g' ≠ won_by_X ∧ victor g' = None.
Proof.
  split; [done|].
  exists (true, board (Some X) (Some X) (Some X) (Some O) (Some O) None
                  None None (Some O) (Some X)),
         (board (Some X) (Some X) (Some X) (Some O) (Some O) None None None None None).
  split; [vm_compute; reflexivity|]. split; [vm_compute; reflexivity|].
  split; [|done]. unfold won_by_X, board. intros [=].
Qed.

(** C7 (amended).  On a board of nine cells whose winner field is [None],
    [place_marker] on a position whose cell is empty returns [True], and
    the search's undo then gives back the board as it was, grid and
    winner. *)
Theorem C7_place_then_undo g pos symbol :
  well_formed g → victor g = None → getitem (grid g) pos = Done None →
  ∃ p, place_marker pos symbol g = Done p ∧ p.1 = true ∧ revert_move pos p.2 = Done g.
Proof.
  intros Hwf Hv Hget.
  assert (∃ p, place_marker pos symbol g = Done p) as [p Hp].
  { unfold place_marker. rewrite Hget. cbn [bind]. rewrite decide_True by done.
    unfold getitem in Hget. apply bind_Done in Hget as (k & Hk & _).
    unfold setitem. rewrite Hk. cbn [bind].
    destruct (check_win_in_range pos symbol
                {| grid := <[k:=Some symbol]> (grid g); victor := victor g |})
      as [w ->]; [..|cbn [bind]; by eexists].
    - unfold well_formed. simpl. by rewrite length_insert.
    - unfold index in Hk. rewrite Hwf in Hk.
      destruct (Z.leb_spec 0 pos), (Z.ltb_spec pos (Z.of_nat 9)); simpl in Hk;
        try lia;
        destruct (Z.leb_spec (- Z.of_nat 9) pos), (Z.ltb_spec pos 0); simpl in Hk;
        try lia; discriminate. }
  exists p. split; [done|].
  destruct (place_marker_free _ _ _ _ Hget Hp) as (_ & _ & _ & _ & Hb & _).
  split; [done|]. by eapply place_then_revert.
Qed.

Lemma C7_place_then_undo_witness :
  ∃ p, place_marker 4 X new_game = Done p ∧ p.1 = true ∧ revert_move 4 p.2 = Done new_game.
Proof.
  apply (C7_place_then_undo new_game 4 X).
  - reflexivity.
  - reflexivity.
  - reflexivity.
Defined.

(** ** run_game without the store *)

Lemma minimax_strategy_chooses fuel :
  chooses_as (minimax_strategy fuel) (minimax_move fuel).
Proof.
  intros symbol st. unfold minimax_strategy, minimax_move.
  assert (H := smart_move_finder_fresh fuel true symbol None st I).
  destruct (minimax fuel true symbol (game st)) as [r|e]; simpl in *; [|by rewrite H].
  destruct H as (a & st' & -> & (Hg & _) & Ha & _). simpl.
  unfold read. rewrite Ha. simpl. eauto.
Qed.

Lemma alphabeta_strategy_chooses fuel :
  chooses_as (alphabeta_strategy fuel) (alphabeta_move fuel).
Proof.
  intros symbol st. unfold alphabeta_strategy, alphabeta_move.
  assert (H := optimized_move_finder_fresh fuel true symbol NegInf PosInf None st I).
  destruct (alphabeta fuel true symbol NegInf PosInf (game st)) as [r|e]; simpl in *;
    [|by rewrite H].
  destruct H as (a & st' & -> & (Hg & _) & Ha & _). simpl.
  unfold read. rewrite Ha. simpl. eauto.
Qed.

Lemma run_game_loop_play x_strategy o_strategy x_chooser o_chooser :
  chooses_as x_strategy x_chooser → chooses_as o_strategy o_chooser →
  ∀ turns current_player st,
    match play turns x_chooser o_chooser current_player (game st) with
    | Done (w, g) =>
        ∃ st', run_game_loop turns x_strategy o_strategy current_player st
                 = Done (w, st') ∧ game st' = g
    | Raise e => run_game_loop turns x_strategy o_strategy current_player st = Raise e
    end.
Proof.
  intros Hx Ho. induction turns as [|turns IH]; intros current_player st; [done|].
  simpl. destruct (has_space (game st)); [|by eexists].
  assert (chooses_as (if decide (current_player = O) then o_strategy else x_strategy)
            (if decide (current_player = O) then o_chooser else x_chooser)) as Hc
    by by case_decide.
  specialize (Hc current_player st).
  destruct ((if decide (current_player = O) then o_chooser else x_chooser) _ _)
    as [mv|e]; simpl in *; [|by rewrite Hc].
  destruct Hc as (st1 & -> & Hg1). simpl.
  destruct mv as [position|]; [|done]. rewrite Hg1.
  destruct (place_marker position current_player (game st)) as [[b g2]|e]; simpl; [|done].
  destruct b.
  - destruct (victor g2); [by eexists|].
    apply (IH (other current_player) (with_game g2 st1)).
  - apply (IH current_player (with_game g2 st1)).
Qed.

(** Choosers that return more, and more turns, do not change a game that
    ends. *)
Lemma play_mono (x1 o1 x2 o2 : move_chooser) :
  (∀ s g mv, x1 s g = Done mv → x2 s g = Done mv) →
  (∀ s g mv, o1 s g = Done mv → o2 s g = Done mv) →
  ∀ turns turns' current_player g r,
    (turns ≤ turns')%nat →
    play turns x1 o1 current_player g = Done r →
    play turns' x2 o2 current_player g = Done r.
Proof.
  intros Hx Ho. induction turns as [|turns IH]; intros turns' cp g r Hle; [done|].
  destruct turns' as [|turns']; [lia|]. simpl.
  destruct (has_space g); [|done].
  intros (mv & Hmv & Hr)%bind_Done.
  assert ((if decide (cp = O) then o2 else x2) cp g = Done mv) as ->.
  { case_decide; [by apply Ho | by apply Hx]. }
  simpl. destruct mv as [position|]; [|done].
  apply bind_Done in Hr as (p & -> & Hr). simpl.
  destruct p.1; [destruct (victor p.2); [done|]|]; (apply IH; [lia|done]).
Qed.

Lemma minimax_move_fuel fuel fuel' s g mv :
  (fuel ≤ fuel')%nat → minimax_move fuel s g = Done mv → minimax_move fuel' s g = Done mv.
Proof.
  unfold minimax_move. intros Hle (r & Hr & [= <-])%bind_Done.
  by rewrite (minimax_fuel _ fuel' _ _ _ _ Hle Hr).
Qed.

Lemma alphabeta_move_fuel fuel fuel' s g mv :
  (fuel ≤ fuel')%nat → minimax_move fuel s g = Done mv → alphabeta_move fuel' s g = Done mv.
Proof.
  unfold minimax_move, alphabeta_move. intros Hle (r & Hr & [= <-])%bind_Done.
  by rewrite (alphabeta_minimax _ _ _ _ _ (minimax_fuel _ fuel' _ _ _ _ Hle Hr)).
Qed.

(** ** C5 *)

Lemma minimax_new_game_X :
  minimax 10 true X new_game = Done {| move := Some 0; value := Int 0 |}.
Proof. vm_compute. reflexivity. Qed.

Lemma minimax_new_game_O :
  minimax 10 true O new_game = Done {| move := Some 0; value := Int 0 |}.
Proof. vm_compute. reflexivity. Qed.

Lemma play_minimax_draw :
  play 10 (minimax_move 10) (minimax_move 10) X new_game = Done (None, drawn_game).
Proof.
  change (play 10 (minimax_move 10) (minimax_move 10) X new_game)
    with (r <- minimax_move 10 X new_game ;;
          match r with
          | None => Raise TypeError
          | Some position =>
              p <- place_marker position X new_game ;;
              if p.1 then
                match victor p.2 with
                | Some _ => Done (Some X, p.2)
                | None => play 9 (minimax_move 10) (minimax_move 10) (other X) p.2
                end
              else play 9 (minimax_move 10) (minimax_move 10) X p.2
          end).
  unfold minimax_move at 1. rewrite minimax_new_game_X.
  vm_compute. reflexivity.
Qed.

(** C5.  From the empty board, with at least ten units of fuel and ten
    turns: each search, maximizing for either mark and called without a
    cache, returns the value 0; and [run_game] with both sides playing
    [minimax_strategy], or both playing [alphabeta_strategy], returns
    [None], no winner, on a full board whose winner field is [None]. *)
Theorem C5_perfect_play_draws fuel turns player st :
  game st = new_game → (10 ≤ fuel)%nat → (10 ≤ turns)%nat →
  (∃ a st' r, smart_move_finder fuel true player None st = Done (a, st') ∧
              dicts st' !! a = Some r ∧ value r = Int 0) ∧
  (∃ a st' r, optimized_move_finder fuel true player NegInf PosInf None st
                = Done (a, st') ∧
              dicts st' !! a = Some r ∧ value r = Int 0) ∧
  (∃ st', run_game turns (minimax_strategy fuel) (minimax_strategy fuel) st
            = Done (None, st') ∧
          victor (game st') = None ∧ has_space (game st') = false) ∧
  (∃ st', run_game turns (alphabeta_strategy fuel) (alphabeta_strategy fuel) st
            = Done (None, st') ∧
          victor (game st') = None ∧ has_space (game st') = false).
Proof.
  intros Hg Hfuel Hturns.
  assert (minimax 10 true player (game st)
          = Done {| move := Some 0; value := Int 0 |}) as Hr.
  { rewrite Hg. destruct player; [apply minimax_new_game_X | apply minimax_new_game_O]. }
  split; [|split; [|split]].
  - destruct (smart_move_finder_computes _ fuel _ _ None _ _ Hr Hfuel I)
      as (a & st' & ? & ? & _). by eexists _, _, _.
  - destruct (optimized_move_finder_computes _ fuel _ _ None _ _ Hr Hfuel I)
      as (a & st' & ? & ? & _). by eexists _, _, _.
  - assert (H := run_game_loop_play _ _ _ _ (minimax_strategy_chooses fuel)
                   (minimax_strategy_chooses fuel) turns X st).
    rewrite Hg in H.
    rewrite (play_mono (minimax_move 10) (minimax_move 10)
               (minimax_move fuel) (minimax_move fuel)
               (λ s g mv, minimax_move_fuel 10 fuel s g mv Hfuel)
               (λ s g mv, minimax_move_fuel 10 fuel s g mv Hfuel)
               10 turns X new_game _ Hturns play_minimax_draw) in H.
    destruct H as (st' & E & Hg'). exists st'. by rewrite Hg'.
  - assert (H := run_game_loop_play _ _ _ _ (alphabeta_strategy_chooses fuel)
                   (alphabeta_strategy_chooses fuel) turns X st).
    rewrite Hg in H.
    rewrite (play_mono (minimax_move 10) (minimax_move 10)
               (alphabeta_move fuel) (alphabeta_move fuel)
               (λ s g mv, alphabeta_move_fuel 10 fuel s g mv Hfuel)
               (λ s g mv, alphabeta_move_fuel 10 fuel s g mv Hfuel)
               10 turns X new_game _ Hturns play_minimax_draw) in H.
    destruct H as (st' & E & Hg'). exists st'. by rewrite Hg'.
Qed.

Lemma C5_perfect_play_draws_witness :
  (∃ a st' r, smart_move_finder 10 true X None (start new_game) = Done (a, st') ∧
              dicts st' !! a = Some r ∧ value r = Int 0) ∧
  (∃ a st' r, optimized_move_finder 10 true X NegInf PosInf None (start new_game)
                = Done (a, st') ∧
              dicts st' !! a = Some r ∧ value r = Int 0) ∧
  (∃ st', run_game 10 (minimax_strategy 10) (minimax_strategy 10) (start new_game)
            = Done (None, st') ∧
          victor (game st') = None ∧ has_space (game st') = false) ∧
  (∃ st', run_game 10 (alphabeta_strategy 10) (alphabeta_strategy 10) (start new_game)
            = Done (None, st') ∧
          victor (game st') = None ∧ has_space (game st') = false).
Proof.
  apply (C5_perfect_play_draws 10 10 X (start new_game)).
  - reflexivity.
  - lia.
  - lia.
Defined.

(** ** Lines *)

Lemma all_grids_complete (g : list cell) : In g (all_grids (length g)).
Proof.
  induction g as [|c g IH]; simpl; [by left|].
  apply in_flat_map. exists g. split; [done|].
  destruct c as [[]|]; simpl; auto.
Qed.

(** The check holds on each of the 19683 grids, by evaluation. *)
Lemma all_grids_ok : forallb grid_ok (all_grids 9) = true.
Proof. vm_compute. reflexivity. Qed.

Lemma win_check_ok_holds (g : list cell) k s :
  length g = 9%nat → g !! k = Some None → win_check_ok g k s = true.
Proof.
  intros Hlen Hk.
  assert (In g (all_grids 9)) as Hg.
  { rewrite <- Hlen. apply all_grids_complete. }
  assert (In k (seq 0 9)) as Hin.
  { apply in_seq. apply lookup_lt_Some in Hk. rewrite Hlen in Hk. lia. }
  assert (In s [X; O]) as Hs by (destruct s; simpl; auto).
  pose proof (proj1 (forallb_forall grid_ok (all_grids 9)) all_grids_ok g Hg) as H1.
  unfold grid_ok in H1.
  pose proof (proj1 (forallb_forall _ _) H1 k Hin) as H2.
  pose proof (proj1 (forallb_forall _ _) H2 s Hs) as H3.
  cbv beta in H3. by rewrite bool_decide_eq_true_2 in H3.
Qed.

Lemma check_win_victor pos s (g : list cell) v v' :
  check_win pos s {| grid := g; victor := v |} =
  check_win pos s {| grid := g; victor := v' |}.
Proof. reflexivity. Qed.

Lemma win_check_spec g k s v :
  well_formed g → grid g !! k = Some None →
  ∃ w, check_win (Z.of_nat k) s
         {| grid := <[k := Some s]> (grid g); victor := v |} = Done w ∧
       (completes_line (<[k := Some s]> (grid g)) k s = true → w = true) ∧
       (w = true → completes_line (<[k := Some s]> (grid g)) k s = true ∨
                   diagonal_full (grid g) s = true) ∧
       (diagonal_full (<[k := Some s]> (grid g)) s = true →
        completes_line (<[k := Some s]> (grid g)) k s = true ∨
        diagonal_full (grid g) s = true) ∧
       (diagonal_full (<[k := Some s]> (grid g)) (other s) = true →
        w = false ∧ diagonal_full (grid g) (other s) = true).
Proof.
  intros Hwf Hk.
  assert (Hok := win_check_ok_holds (grid g) k s Hwf Hk).
  unfold win_check_ok in Hok. cbv zeta in Hok.
  rewrite (check_win_victor _ _ _ v None).
  destruct (check_win _ _ _) as [w|]; [|done].
  exists w. split; [done|].
  destruct (completes_line _ k s), w, (diagonal_full (<[k := Some s]> (grid g)) s),
    (diagonal_full (grid g) s), (diagonal_full _ (other s)),
    (diagonal_full (grid g) (other s)); simpl in Hok; try done; auto 10.
Qed.

Lemma place_marker_nat_win k symbol g :
  well_formed g → grid g !! k = Some None →
  ∃ w, check_win (Z.of_nat k) symbol
         {| grid := <[k:=Some symbol]> (grid g); victor := victor g |} = Done w ∧
       place_marker (Z.of_nat k) symbol g =
         Done (true, {| grid := <[k:=Some symbol]> (grid g);
                        victor := if w then Some symbol else victor g |}).
Proof.
  intros Hwf Hk.
  assert (k < 9)%nat as Hlt by (rewrite <- Hwf; by eapply lookup_lt_Some).
  destruct (check_win_in_range (Z.of_nat k) symbol
              {| grid := <[k:=Some symbol]> (grid g); victor := victor g |})
    as [w Hw]; [|lia|].
  { unfold well_formed. simpl. by rewrite length_insert. }
  exists w. split; [done|].
  unfold place_marker. rewrite (getitem_nat (grid g) k None Hk).
  cbn [bind]. rewrite decide_True by done.
  rewrite setitem_nat by by rewrite Hwf. cbn [bind]. rewrite Hw. cbn [bind].
  by destruct w.
Qed.

(** On a reachable board a diagonal held by one mark has been recorded:
    the winner field names that mark. *)
Lemma reachable_diagonal_recorded g :
  reachable g → ∀ s, diagonal_full (grid g) s = true → victor g = Some s.
Proof.
  induction 1 as [|g pos symbol p Hreach IH Hpos Hp]; intros s.
  { by destruct s. }
  assert (Hwf := reachable_well_formed _ Hreach).
  apply elem_of_free_spaces in Hpos as (k & -> & Hk).
  destruct (place_marker_nat_win k symbol g Hwf Hk) as (w & Hw & Hplace).
  rewrite Hplace in Hp. injection Hp as <-. simpl.
  destruct (win_check_spec g k symbol (victor g) Hwf Hk)
    as (w' & Hw' & Hcw & Hwc & Hdiag & Hother).
  rewrite Hw in Hw'. injection Hw' as <-.
  intros Hfull. destruct (decide (s = symbol)) as [->|Hne].
  - destruct w; [done|].
    destruct (Hdiag Hfull) as [Hc|Hd]; [by apply Hcw in Hc|]. by apply IH.
  - assert (s = other symbol) as -> by by destruct s, symbol.
    destruct (Hother Hfull) as [-> Hd]. by apply IH.
Qed.

(** ** The exact answer of check_win *)

Lemma all_grids_exact : forallb check_win_exact (all_grids 9) = true.
Proof. vm_compute. reflexivity. Qed.

Lemma check_win_exact_holds g k s v :
  well_formed g → grid g !! k = Some None →
  check_win (Z.of_nat k) s {| grid := <[k := Some s]> (grid g); victor := v |}
    = Done (completes_line (<[k := Some s]> (grid g)) k s
            || (Nat.even k && diagonal_full (<[k := Some s]> (grid g)) s)) ∧
  check_win (Z.of_nat k - 9) s {| grid := <[k := Some s]> (grid g); victor := v |}
    = Done (row_or_column_full (<[k := Some s]> (grid g)) k s
            || (Nat.odd k && diagonal_full (<[k := Some s]> (grid g)) s)).
Proof.
  intros Hwf Hk. unfold well_formed in Hwf.
  assert (In (grid g) (all_grids 9)) as Hg.
  { rewrite <- Hwf. apply all_grids_complete. }
  assert (In k (seq 0 9)) as Hin.
  { apply in_seq. apply lookup_lt_Some in Hk. rewrite Hwf in Hk. lia. }
  assert (In s [X; O]) as Hs by (destruct s; simpl; auto).
  pose proof (proj1 (forallb_forall check_win_exact (all_grids 9))
                all_grids_exact (grid g) Hg) as H1.
  unfold check_win_exact in H1.
  pose proof (proj1 (forallb_forall _ _) H1 k Hin) as H2.
  pose proof (proj1 (forallb_forall _ _) H2 s Hs) as H3.
  cbv beta zeta in H3. rewrite bool_decide_eq_true_2 in H3 by done.
  rewrite (check_win_victor (Z.of_nat k) _ _ v None).
  rewrite (check_win_victor (Z.of_nat k - 9) _ _ v None).
  destruct (check_win (Z.of_nat k) _ _) as [w|]; [|done].
  destruct (check_win (Z.of_nat k - 9) _ _) as [w'|]; [|done].
  apply andb_prop in H3 as [E1 E2]. apply eqb_prop in E1, E2.
  by rewrite E1, E2.
Qed.

(** [place_marker] on an empty cell of a board of nine cells, for the
    position [k] and for the position [k - 9]. *)
Lemma place_marker_exact g k symbol :
  well_formed g → grid g !! k = Some None →
  place_marker (Z.of_nat k) symbol g =
    Done (true,
          {| grid := <[k := Some symbol]> (grid g);
             victor := if completes_line (<[k := Some symbol]> (grid g)) k symbol
                          || (Nat.even k
                              && diagonal_full (<[k := Some symbol]> (grid g)) symbol)
                       then Some symbol else victor g |}) ∧
  place_marker (Z.of_nat k - 9) symbol g =
    Done (true,
          {| grid := <[k := Some symbol]> (grid g);
             victor := if row_or_column_full (<[k := Some symbol]> (grid g)) k symbol
                          || (Nat.odd k
                              && diagonal_full (<[k := Some symbol]> (grid g)) symbol)
                       then Some symbol else victor g |}).
Proof.
  intros Hwf Hk.
  destruct (check_win_exact_holds g k symbol (victor g) Hwf Hk) as [E1 E2].
  assert (k < 9)%nat as Hlt by (rewrite <- Hwf; by eapply lookup_lt_Some).
  assert (index (grid g) (Z.of_nat k - 9) = Done k) as Hi.
  { unfold index. rewrite Hwf.
    destruct (Z.leb_spec 0 (Z.of_nat k - 9)); [lia|]. simpl.
    destruct (Z.leb_spec (- Z.of_nat 9) (Z.of_nat k - 9)); [|lia].
    destruct (Z.ltb_spec (Z.of_nat k - 9) 0); [|lia]. simpl. f_equal. lia. }
  split.
  - unfold place_marker. rewrite (getitem_nat (grid g) k None Hk).
    cbn [bind]. rewrite decide_True by done.
    rewrite setitem_nat by by rewrite Hwf. cbn [bind]. rewrite E1. cbn [bind].
    by match goal with |- context [if ?b then _ else _] => destruct b end.
  - unfold place_marker, getitem, setitem. rewrite Hi. cbn [bind]. rewrite Hk.
    cbn [bind]. rewrite decide_True by done. rewrite E2. cbn [bind].
    by match goal with |- context [if ?b then _ else _] => destruct b end.
Qed.

Lemma place_marker_occupied g k m symbol :
  well_formed g → grid g !! k = Some (Some m) →
  place_marker (Z.of_nat k) symbol g = Done (false, g) ∧
  place_marker (Z.of_nat k - 9) symbol g = Done (false, g).
Proof.
  intros Hwf Hk.
  assert (k < 9)%nat as Hlt by (rewrite <- Hwf; by eapply lookup_lt_Some).
  assert (index (grid g) (Z.of_nat k - 9) = Done k) as Hi.
  { unfold index. rewrite Hwf.
    destruct (Z.leb_spec 0 (Z.of_nat k - 9)); [lia|]. simpl.
    destruct (Z.leb_spec (- Z.of_nat 9) (Z.of_nat k - 9)); [|lia].
    destruct (Z.ltb_spec (Z.of_nat k - 9) 0); [|lia]. simpl. f_equal. lia. }
  split.
  - unfold place_marker. rewrite (getitem_nat (grid g) k _ Hk). cbn [bind].
    by rewrite decide_False.
  - unfold place_marker, getitem. rewrite Hi. cbn [bind]. rewrite Hk. cbn [bind].
    by rewrite decide_False.
Qed.

(** ** C8 *)

(** C8, the claim as written fails.  With X on the cells 0, 4 and 8 and
    no winner recorded, a board that [place_marker] builds from the empty
    one with the positions 0, 4 and -1, [place_marker(2, 'X')] finds cell 2
    empty, writes X, returns [True] and sets the winner to X, although no
    line through cell 2 is complete: the even position makes [check_win]
    test the diagonal 0, 4, 8. *)
Lemma C8_winner_without_line :
  (∃ g1 g2, place_marker 0 X new_game = Done (true, g1) ∧
            place_marker 4 X g1 = Done (true, g2) ∧
            place_marker (-1) X g2 = Done (true, unrecorded_diagonal)) ∧
  victor unrecorded_diagonal = None ∧
  grid unrecorded_diagonal !! 2%nat = Some None ∧
  ∃ p, place_marker 2 X unrecorded_diagonal = Done (true, p) ∧
       grid p = <[2%nat := Some X]> (grid unrecorded_diagonal) ∧
       completes_line (grid p) 2 X = false ∧
       victor p = Some X ∧
       place_marker 2 X unrecorded_diagonal ≠
         Done (true, {| grid := grid p;
                        victor := if completes_line (grid p) 2 X
                                  then Some X else victor unrecorded_diagonal |}).
Proof.
  split; [|split; [done|split; [done|]]].
  - by eexists _, _.
  - eexists. split; [reflexivity|]. by repeat split.
Qed.

(** C8, amended.  On every board of nine cells and for a position from 0
    to 8, [place_marker] raises nothing.  If the cell holds a mark it
    returns [False] and the board, grid and winner, is untouched.  If the
    cell is empty it returns [True], the grid has the mark on that cell
    and is otherwise unchanged, and the winner is the mark when the cell
    now lies on a line held entirely by the mark, or when the position is
    even and the mark holds a whole diagonal; otherwise the winner is what
    it was before.  On a board built by placing marks on empty cells at
    positions 0 to 8 the second case adds nothing: the winner is the mark
    exactly when the cell now lies on a line held entirely by the mark. *)
Theorem C8_place_marker g pos symbol :
  well_formed g → 0 ≤ pos ≤ 8 →
  let k := Z.to_nat pos in
  let g' := <[k := Some symbol]> (grid g) in
  ∃ c, grid g !! k = Some c ∧
    match c with
    | Some _ => place_marker pos symbol g = Done (false, g)
    | None =>
        place_marker pos symbol g =
          Done (true,
                {| grid := g';
                   victor := if completes_line g' k symbol
                                || (Nat.even k && diagonal_full g' symbol)
                             then Some symbol else victor g |}) ∧
        (reachable g →
         place_marker pos symbol g =
           Done (true,
                 {| grid := g';
                    victor := if completes_line g' k symbol
                              then Some symbol else victor g |}))
    end.
Proof.
  intros Hwf Hpos. cbv zeta. remember (Z.to_nat pos) as k eqn:Ek.
  assert (k < 9)%nat as Hlt by lia.
  assert (pos = Z.of_nat k) as -> by lia. clear Ek Hpos.
  destruct (grid g !! k) as [c|] eqn:Hc.
  2:{ apply lookup_ge_None in Hc. rewrite Hwf in Hc. lia. }
  exists c. split; [done|].
  destruct c as [m|].
  - by apply (place_marker_occupied g k m symbol).
  - destruct (place_marker_exact g k symbol Hwf Hc) as [E _].
    split; [done|]. intros Hreach. rewrite E. do 3 f_equal.
    destruct (completes_line _ k symbol) eqn:Hline; [done|]. simpl.
    destruct (Nat.even k); [|done]. simpl.
    destruct (diagonal_full _ symbol) eqn:Hfull; [|done].
    destruct (win_check_spec g k symbol (victor g) Hwf Hc)
      as (w & _ & _ & _ & Hdiag & _).
    destruct (Hdiag Hfull) as [?|Hd]; [congruence|].
    symmetry. by apply reachable_diagonal_recorded.
Qed.

Lemma C8_place_marker_witness :
  (let k := Z.to_nat 0 in
   let g' := <[k := Some O]> (grid corners_0_8) in
   ∃ c, grid corners_0_8 !! k = Some c ∧
     match c with
     | Some _ => place_marker 0 O corners_0_8 = Done (false, corners_0_8)
     | None =>
         place_marker 0 O corners_0_8 =
           Done (true,
                 {| grid := g';
                    victor := if completes_line g' k O
                                 || (Nat.even k && diagonal_full g' O)
                              then Some O else victor corners_0_8 |}) ∧
         (reachable corners_0_8 →
          place_marker 0 O corners_0_8 =
            Done (true,
                  {| grid := g';
                     victor := if completes_line g' k O
                               then Some O else victor corners_0_8 |}))
     end) ∧
  (let k := Z.to_nat 4 in
   let g' := <[k := Some X]> (grid corners_0_8) in
   ∃ c, grid corners_0_8 !! k = Some c ∧
     match c with
     | Some _ => place_marker 4 X corners_0_8 = Done (false, corners_0_8)
     | None =>
         place_marker 4 X corners_0_8 =
           Done (true,
                 {| grid := g';
                    victor := if completes_line g' k X
                                 || (Nat.even k && diagonal_full g' X)
                              then Some X else victor corners_0_8 |}) ∧
         (reachable corners_0_8 →
          place_marker 4 X corners_0_8 =
            Done (true,
                  {| grid := g';
                     victor := if completes_line g' k X
                               then Some X else victor corners_0_8 |}))
     end).
Proof.
  split.
  - apply (C8_place_marker corners_0_8 0 O); [reflexivity|lia].
  - apply (C8_place_marker corners_0_8 4 X); [reflexivity|lia].
Defined.

(** ** C10 *)

(** C10.  On a board of nine cells [place_marker] raises [IndexError] for
    every position above 8 or below -9.  For a position from -9 to -1 it
    raises nothing and works on cell [pos + 9]: if that cell holds a mark
    it returns [False] and leaves the board untouched, as it does for
    [pos + 9]; if that cell is empty it writes the mark there, leaves the
    other cells, and returns [True], as it does for [pos + 9].  The
    winner is set from the row and the column of the cell and, the
    position as given being even, from the diagonals: for [pos] the
    diagonals count when [pos + 9] is odd, for [pos + 9] when it is
    even. *)
Theorem C10_positions_not_validated g pos symbol :
  well_formed g →
  (pos > 8 ∨ pos < -9 → place_marker pos symbol g = Raise IndexError) ∧
  (-9 ≤ pos ≤ -1 →
   let k := Z.to_nat (pos + 9) in
   let g' := <[k := Some symbol]> (grid g) in
   ∃ c, grid g !! k = Some c ∧
     match c with
     | Some _ =>
         place_marker pos symbol g = Done (false, g) ∧
         place_marker (pos + 9) symbol g = Done (false, g)
     | None =>
         place_marker pos symbol g =
           Done (true,
                 {| grid := g';
                    victor := if row_or_column_full g' k symbol
                                 || (Nat.odd k && diagonal_full g' symbol)
                              then Some symbol else victor g |}) ∧
         place_marker (pos + 9) symbol g =
           Done (true,
                 {| grid := g';
                    victor := if completes_line g' k symbol
                                 || (Nat.even k && diagonal_full g' symbol)
                              then Some symbol else victor g |})
     end).
Proof.
  intros Hwf. split.
  - intros Hpos. unfold place_marker, getitem, index. rewrite Hwf.
    destruct (Z.leb_spec 0 pos), (Z.ltb_spec pos (Z.of_nat 9)); simpl; try lia;
      destruct (Z.leb_spec (- Z.of_nat 9) pos), (Z.ltb_spec pos 0); simpl; try lia; done.
  - intros Hpos. cbv zeta. remember (Z.to_nat (pos + 9)) as k eqn:Ek.
    assert (k < 9)%nat as Hlt by lia.
    assert (pos = Z.of_nat k - 9) as -> by lia. clear Ek Hpos.
    replace (Z.of_nat k - 9 + 9) with (Z.of_nat k) by lia.
    destruct (grid g !! k) as [c|] eqn:Hc.
    2:{ apply lookup_ge_None in Hc. rewrite Hwf in Hc. lia. }
    exists c. split; [done|].
    destruct c as [m|].
    + destruct (place_marker_occupied g k m symbol Hwf Hc). by split.
    + destruct (place_marker_exact g k symbol Hwf Hc). by split.
Qed.

Lemma C10_positions_not_validated_witness :
  place_marker 9 X new_game = Raise IndexError ∧
  (let k := Z.to_nat (-1 + 9) in
   let g' := <[k := Some X]> (grid diagonal_to_complete) in
   ∃ c, grid diagonal_to_complete !! k = Some c ∧
     match c with
     | Some _ =>
         place_marker (-1) X diagonal_to_complete = Done (false, diagonal_to_complete) ∧
         place_marker (-1 + 9) X diagonal_to_complete = Done (false, diagonal_to_complete)
     | None =>
         place_marker (-1) X diagonal_to_complete =
           Done (true,
                 {| grid := g';
                    victor := if row_or_column_full g' k X
                                 || (Nat.odd k && diagonal_full g' X)
                              then Some X else victor diagonal_to_complete |}) ∧
         place_marker (-1 + 9) X diagonal_to_complete =
           Done (true,
                 {| grid := g';
                    victor := if completes_line g' k X
                                 || (Nat.even k && diagonal_full g' X)
                              then Some X else victor diagonal_to_complete |})
     end).
Proof.
  split.
  - apply (C10_positions_not_validated new_game 9 X); [reflexivity|lia].
  - apply (C10_positions_not_validated diagonal_to_complete (-1) X); [reflexivity|lia].
Defined.

(** ** The move the full search chooses *)

Lemma free_spaces_from_sorted (l : list cell) : ∀ n : nat,
  StronglySorted Z.lt
    (fst <$> filter (λ p, p.2 = None) (imap (λ i x, (Z.of_nat (n + i), x)) l)) ∧
  Forall (λ z, Z.of_nat n ≤ z)
    (fst <$> filter (λ p, p.2 = None) (imap (λ i x, (Z.of_nat (n + i), x)) l)).
Proof.
  induction l as [|c l IH]; intros n; simpl.
  { split; constructor. }
  destruct (IH (S n)) as [Hsorted Hge].
  rewrite (imap_ext _ (λ i x, (Z.of_nat (S n + i), x))) by
    (intros; simpl; do 2 f_equal; lia).
  assert (Forall (λ z, Z.of_nat n < z)
            (fst <$> filter (λ p, p.2 = None)
                       (imap (λ i x, (Z.of_nat (S n + i), x)) l))) as Hgt.
  { eapply Forall_impl; [done|]. simpl. intros. lia. }
  destruct c as [m|].
  - rewrite filter_cons_False by done. split; [done|].
    eapply Forall_impl; [done|]. simpl. intros. lia.
  - rewrite filter_cons_True by done. simpl. rewrite Nat.add_0_r. split.
    + by constructor.
    + constructor; [lia|]. eapply Forall_impl; [done|]. simpl. intros. lia.
Qed.

Lemma free_spaces_sorted g : StronglySorted Z.lt (free_spaces g).
Proof.
  unfold free_spaces, enumerate.
  destruct (free_spaces_from_sorted (grid g) 0) as [H _].
  by rewrite (imap_ext _ (λ i x, (Z.of_nat (0 + i), x))) by done.
Qed.

Section choice.
Context (prec : TicTacToe → outcome result) (symbol : mark) (is_maximizing : bool).
Context (g : TicTacToe).

Let val (mv : Z) : outcome num :=
p <- place_marker mv symbol g ;; o <- prec p.2 ;; Done (value o).

(** The loop either keeps [best], no move improving on it, or returns
  the last move that improved: the moves before it are strictly
  worse and the moves after it are not better. *)
Lemma minimax_loop_choice moves : ∀ best r,
minimax_loop prec symbol is_maximizing moves best g = Done r →
(r = best ∧
 ∀ mv, mv ∈ moves →
       ∃ v, val mv = Done v ∧ improves is_maximizing v (value best) = false) ∨
(∃ l1 mv l2, moves = l1 ++ mv :: l2 ∧ move r = Some mv ∧
   val mv = Done (value r) ∧
   improves is_maximizing (value r) (value best) = true ∧
   (∀ mv', mv' ∈ l1 →
           ∃ v, val mv' = Done v ∧ improves is_maximizing (value r) v = true) ∧
   (∀ mv', mv' ∈ l2 →
           ∃ v, val mv' = Done v ∧ improves is_maximizing v (value r) = false)).
Proof.
induction moves as [|mv0 rest IH]; intros best r; simpl.
{ intros [= ->]. left. split; [done|]. intros mv Hmv. by apply elem_of_nil in Hmv. }
intros (b1 & (p & o & Hp & Ho & ->)%eval_move_Done & Hr)%bind_Done.
assert (val mv0 = Done (value o)) as Hv0.
{ unfold val. rewrite Hp. simpl. by rewrite Ho. }
apply IH in Hr as [[-> Hrest]|(l1 & mv & l2 & -> & Hmv & Hval & Himp & Hl1 & Hl2)].
- destruct (improves is_maximizing (value o) (value best)) eqn:Himp.
  + right. exists [], mv0, rest. simpl. repeat split; try done.
    intros mv' Hin. by apply elem_of_nil in Hin.
  + left. split; [done|]. intros mv [->|Hin]%elem_of_cons; eauto.
- right. exists (mv0 :: l1), mv, l2. rewrite value_improved in Himp.
  repeat split; try done.
  + destruct is_maximizing; num_lia.
  + intros mv' [->|Hin]%elem_of_cons; [|by apply Hl1].
    exists (value o). split; [done|]. destruct is_maximizing; num_lia.
Qed.
End choice.

Lemma has_space_free_spaces g : has_space g = true → ∃ mv, mv ∈ free_spaces g.
Proof.
  unfold has_space. intros Hin%bool_decide_eq_true_1.
  apply list_elem_of_lookup in Hin as [k Hk].
  exists (Z.of_nat k). apply elem_of_free_spaces. eauto.
Qed.

(** The value the full search returns is an integer. *)
Lemma minimax_value_Int fuel : ∀ is_maximizing player g r,
  well_formed g → minimax fuel is_maximizing player g = Done r →
  ∃ z, value r = Int z.
Proof.
  induction fuel as [|fuel IH]; intros is_maximizing player g r Hwf; [done|].
  simpl. destruct (terminal player g) as [t|] eqn:Ht.
  { intros [= <-]. unfold terminal in Ht.
    repeat case_decide; try destruct (has_space g); simpl in Ht; simplify_eq;
      simpl; eauto. }
  assert (∀ mv v, mv ∈ free_spaces g →
            (p <- place_marker mv (if is_maximizing then player else other player) g ;;
             o <- minimax fuel (negb is_maximizing) player p.2 ;; Done (value o))
            = Done v → ∃ z, v = Int z) as Hchild.
  { intros mv v Hmv (p & Hp & (o & Ho & [= <-])%bind_Done)%bind_Done.
    destruct (place_marker_well_formed mv
                (if is_maximizing then player else other player) g Hwf Hmv)
      as (p' & Hp' & Hwf' & _).
    rewrite Hp in Hp'. injection Hp' as <-. by eapply IH. }
  intros [[-> Hnone]|(l1 & mv & l2 & Hmoves & _ & Hval & _)]%minimax_loop_choice.
  - apply terminal_None in Ht as [_ Hspace].
    destruct (has_space_free_spaces g Hspace) as [mv Hmv].
    destruct (Hnone mv Hmv) as (v & Hv & Himp).
    destruct (Hchild mv v Hmv Hv) as [z ->].
    by destruct is_maximizing.
  - eapply (Hchild mv); [|done]. rewrite Hmoves. set_solver.
Qed.

(** C9.  On a board of nine cells that is not terminal and with no
    usable cache: [free_spaces] lists the empty cells in strictly
    ascending order, and both searches return a move [mv] on an empty cell
    whose value [v] is the value of the search; no empty cell has a
    better value (greater when maximizing, lesser when minimizing), and
    every empty cell whose value equals [v] has an index at least [mv]. *)
Theorem C9_lowest_index_tie_break g is_maximizing player fuel m1 m2 st :
  well_formed g → game st = g → terminal player g = None →
  (10 ≤ fuel)%nat → fresh m1 st → fresh m2 st →
  StronglySorted Z.lt (free_spaces g) ∧
  ∃ mv v,
    (∃ a st', smart_move_finder fuel is_maximizing player m1 st = Done (a, st') ∧
              dicts st' !! a = Some {| move := Some mv; value := v |}) ∧
    (∃ a st', optimized_move_finder fuel is_maximizing player NegInf PosInf m2 st
                = Done (a, st') ∧
              dicts st' !! a = Some {| move := Some mv; value := v |}) ∧
    mv ∈ free_spaces g ∧
    move_value 9 is_maximizing player g mv = Done v ∧
    ∀ mv', mv' ∈ free_spaces g →
      ∃ v', move_value 9 is_maximizing player g mv' = Done v' ∧
            improves is_maximizing v' v = false ∧ (v' = v → mv ≤ mv').
Proof.
  intros Hwf Hg Hterm Hfuel Hm1 Hm2. subst g.
  assert (Hsorted := free_spaces_sorted (game st)). split; [done|].
  pose proof (count_free_bound _ Hwf) as Hcount.
  destruct (minimax_returns 10 is_maximizing player (game st) Hwf) as [r Hr]; [lia|].
  assert (Hloop := Hr). simpl in Hloop. rewrite Hterm in Hloop.
  assert (∀ mv' v', mv' ∈ free_spaces (game st) →
            (p <- place_marker mv' (if is_maximizing then player else other player)
                   (game st) ;;
             o <- minimax 9 (negb is_maximizing) player p.2 ;; Done (value o))
            = Done v' →
            move_value 9 is_maximizing player (game st) mv' = Done v' ∧
            ∃ z, v' = Int z) as Hchild.
  { intros mv' v' Hmv' Hv'. split; [done|].
    apply bind_Done in Hv' as (p & Hp & (o & Ho & [= <-])%bind_Done).
    destruct (place_marker_well_formed mv'
                (if is_maximizing then player else other player) _ Hwf Hmv')
      as (p' & Hp' & Hwf' & _).
    rewrite Hp in Hp'. injection Hp' as <-. by eapply minimax_value_Int. }
  apply minimax_loop_choice in Hloop
    as [[-> Hnone]|(l1 & mv & l2 & Hmoves & Hmv & Hval & _ & Hl1 & Hl2)].
  { apply terminal_None in Hterm as [_ Hspace].
    destruct (has_space_free_spaces _ Hspace) as [mv Hmv].
    destruct (Hnone mv Hmv) as (v & Hv & Himp).
    destruct (Hchild mv v Hmv Hv) as [_ [z ->]]. by destruct is_maximizing. }
  assert (r = {| move := Some mv; value := value r |}) as Hrec
    by (destruct r; simpl in *; by subst).
  rewrite Hrec in Hr.
  assert (mv ∈ free_spaces (game st)) as Hin by (rewrite Hmoves; set_solver).
  exists mv, (value r). split; [|split; [|split; [done|split]]].
  - destruct (smart_move_finder_computes _ fuel _ _ m1 _ _ Hr Hfuel Hm1)
      as (a & st' & ? & ? & _). eauto.
  - destruct (optimized_move_finder_computes _ fuel _ _ m2 _ _ Hr Hfuel Hm2)
      as (a & st' & ? & ? & _). eauto.
  - by apply Hchild.
  - intros mv' Hmv'. rewrite Hmoves in Hmv', Hsorted.
    apply StronglySorted_app in Hsorted as (Hlt & _ & Hs2).
    apply StronglySorted_cons in Hs2 as [Hgt _]. rewrite Forall_forall in Hgt.
    apply elem_of_app in Hmv' as [H1|[->|H2]%elem_of_cons].
    + destruct (Hl1 mv' H1) as (v' & Hv' & Himp). exists v'.
      split; [apply Hchild; [rewrite Hmoves; set_solver|done]|].
      split; [destruct is_maximizing; num_lia|].
      intros ->. exfalso. destruct is_maximizing; num_lia.
    + exists (value r). split; [by apply Hchild|].
      split; [destruct is_maximizing; num_lia|lia].
    + destruct (Hl2 mv' H2) as (v' & Hv' & Himp). exists v'.
      split; [apply Hchild; [rewrite Hmoves; set_solver|done]|].
      split; [done|]. intros _. specialize (Hgt mv' H2). lia.
Qed.

Lemma C9_lowest_index_tie_break_witness :
  StronglySorted Z.lt (free_spaces new_game) ∧
  ∃ mv v,
    (∃ a st', smart_move_finder 10 true X None (start new_game) = Done (a, st') ∧
              dicts st' !! a = Some {| move := Some mv; value := v |}) ∧
    (∃ a st', optimized_move_finder 10 true X NegInf PosInf None (start new_game)
                = Done (a, st') ∧
              dicts st' !! a = Some {| move := Some mv; value := v |}) ∧
    mv ∈ free_spaces new_game ∧
    move_value 9 true X new_game mv = Done v ∧
    ∀ mv', mv' ∈ free_spaces new_game →
      ∃ v', move_value 9 true X new_game mv' = Done v' ∧
            improves true v' v = false ∧ (v' = v → mv ≤ mv').
Proof.
  apply (C9_lowest_index_tie_break new_game true X 10 None None (start new_game)).
  - reflexivity.
  - reflexivity.
  - reflexivity.
  - lia.
  - exact I.
  - exact I.
Defined.

(** * Further properties of the code *)

(** ** The cache *)

Lemma memory_or_new_hit m d key (a : nat) st :
  memos st !! m = Some d → d !! key = Some a →
  memory_or_new (Some m) st = Done (m, st).
Proof.
  intros Hm Hd. unfold memory_or_new, memo_at. rewrite Hm. simpl.
  rewrite decide_False; [done|]. intros ->. by rewrite lookup_empty in Hd.
Qed.

Lemma cache_hit fuel is_maximizing player alpha beta m d a st :
  memos st !! m = Some d → d !! grid (game st) = Some a →
  smart_move_finder (S fuel) is_maximizing player (Some m) st = Done (a, st) ∧
  optimized_move_finder (S fuel) is_maximizing player alpha beta (Some m) st
    = Done (a, st).
Proof.
  intros Hm Hd. cbn [smart_move_finder optimized_move_finder].
  rewrite (memory_or_new_hit _ _ _ _ _ Hm Hd). cbn [bind fst snd].
  unfold memo_at. rewrite Hm. cbn [bind]. by rewrite Hd.
Qed.

(** X1.  A hit in [memory]: when the dictionary passed as [memory] has an
    entry for the current grid, either search returns the stored
    dictionary at once and the store (board, result dictionaries,
    memories) is exactly as before. *)
Theorem X1_cache_hit fuel is_maximizing player alpha beta m d a st :
  memos st !! m = Some d → d !! grid (game st) = Some a →
  smart_move_finder (S fuel) is_maximizing player (Some m) st = Done (a, st) ∧
  optimized_move_finder (S fuel) is_maximizing player alpha beta (Some m) st
    = Done (a, st).
Proof. apply cache_hit. Qed.

Lemma X1_cache_hit_witness :
  smart_move_finder 1 true X (Some 0%nat) cached_store = Done (0%nat, cached_store) ∧
  optimized_move_finder 1 true X NegInf PosInf (Some 0%nat) cached_store
    = Done (0%nat, cached_store).
Proof.
  apply (X1_cache_hit 0 true X NegInf PosInf 0 {[ grid new_game := 0%nat ]} 0
           cached_store).
  - reflexivity.
  - apply lookup_singleton_eq.
Defined.

(** X2.  A dictionary that is empty when it is passed as [memory] is
    still empty when the call returns, for either search: the callee
    works on a dictionary of its own, and nothing it or the calls below
    it store reaches the caller. *)
Theorem X2_empty_memory_receives_nothing fuel is_maximizing player alpha beta m st a st' :
  memos st !! m = Some ∅ →
  smart_move_finder fuel is_maximizing player (Some m) st = Done (a, st') ∨
  optimized_move_finder fuel is_maximizing player alpha beta (Some m) st = Done (a, st') →
  memos st' !! m = Some ∅.
Proof. apply empty_cache_stays_empty. Qed.

Lemma X2_empty_memory_receives_nothing_witness :
  memos cold_store_after !! 0%nat = Some ∅.
Proof.
  apply (X2_empty_memory_receives_nothing 2 true X NegInf PosInf 0 cold_store
           1 cold_store_after).
  - reflexivity.
  - left. vm_compute. reflexivity.
Defined.

(** X3.  A search called without a usable cache leaves the board as it
    found it and touches no dictionary that existed before the call: the
    old result dictionaries and memories are a prefix of the new ones, and
    the dictionary returned is a new one. *)
Theorem X3_search_restores_board fuel is_maximizing player alpha beta memory st a st' :
  fresh memory st →
  smart_move_finder fuel is_maximizing player memory st = Done (a, st') ∨
  optimized_move_finder fuel is_maximizing player alpha beta memory st = Done (a, st') →
  game st' = game st ∧ dicts st `prefix_of` dicts st' ∧
  memos st `prefix_of` memos st' ∧ (length (dicts st) ≤ a < length (dicts st'))%nat.
Proof.
  intros Hm [Hrun|Hrun].
  - assert (H := smart_move_finder_fresh fuel is_maximizing player memory st Hm).
    destruct (minimax _ _ _ _); simpl in H; [|congruence].
    destruct H as (a' & st'' & E & (? & ? & ?) & Ha & ?).
    rewrite Hrun in E. injection E as <- <-. apply lookup_lt_Some in Ha. auto.
  - assert (H := optimized_move_finder_fresh fuel is_maximizing player alpha beta
                   memory st Hm).
    destruct (alphabeta _ _ _ _ _ _); simpl in H; [|congruence].
    destruct H as (a' & st'' & E & (? & ? & ?) & Ha & ?).
    rewrite Hrun in E. injection E as <- <-. apply lookup_lt_Some in Ha. auto.
Qed.

Lemma X3_search_restores_board_witness :
  game used_store_after = game used_store ∧
  dicts used_store `prefix_of` dicts used_store_after ∧
  memos used_store `prefix_of` memos used_store_after ∧
  (length (dicts used_store) ≤ 2 < length (dicts used_store_after))%nat.
Proof.
  apply (X3_search_restores_board 2 true X NegInf PosInf None used_store 2
           used_store_after).
  - exact I.
  - left. vm_compute. reflexivity.
Defined.

(** X4.  The window of [optimized_move_finder]: for any [alpha < beta]
    and without a usable cache, when the full search returns the value
    [t] the pruned search returns a value [v] that is [t] if [t] lies
    strictly inside the window, lies between [t] and [alpha] if
    [t <= alpha], and between [beta] and [t] if [beta <= t]. *)
Theorem X4_window_bounds fuel is_maximizing player alpha beta m1 m2 st a st1 r :
  fresh m1 st → fresh m2 st → num_lt alpha beta →
  smart_move_finder fuel is_maximizing player m1 st = Done (a, st1) →
  dicts st1 !! a = Some r →
  ∃ b st2 r',
    optimized_move_finder fuel is_maximizing player alpha beta m2 st = Done (b, st2) ∧
    dicts st2 !! b = Some r' ∧ within alpha beta (value r) (value r').
Proof.
  intros Hm1 Hm2 Hab Hrun Ha.
  assert (H1 := smart_move_finder_fresh fuel is_maximizing player m1 st Hm1).
  destruct (minimax fuel is_maximizing player (game st)) as [t|] eqn:Ht;
    simpl in H1; [|congruence].
  destruct H1 as (a' & st'' & E & _ & Ha' & _).
  rewrite Hrun in E. injection E as <- <-. rewrite Ha in Ha'. injection Ha' as <-.
  destruct (alphabeta_within fuel is_maximizing player alpha beta _ _ Hab Ht)
    as (r' & Hr' & Hin).
  assert (H2 := optimized_move_finder_fresh fuel is_maximizing player alpha beta
                  m2 st Hm2).
  rewrite Hr' in H2. destruct H2 as (b & st2 & ? & _ & ? & _).
  by exists b, st2, r'.
Qed.

Lemma X4_window_bounds_witness :
  ∃ b st2 r',
    optimized_move_finder 10 true X (Int 0) (Int 1) None (start transposing_board)
      = Done (b, st2) ∧
    dicts st2 !! b = Some r' ∧ within (Int 0) (Int 1) (Int 3) (value r').
Proof.
  apply (X4_window_bounds 10 true X (Int 0) (Int 1) None None (start transposing_board)
           full_search.1 full_search.2 {| move := Some 4; value := Int 3 |}).
  - exact I.
  - exact I.
  - reflexivity.
  - vm_compute. reflexivity.
  - vm_compute. reflexivity.
Defined.

(** X5.  A hit hands out the stored dictionary itself.  In the loop body,
    when [memory] has an entry [c] for the board the move leads to, no
    search is made and [outcome['move'] = move] is written into that
    stored dictionary: afterwards the entry of that board carries the
    move just tried by the caller; nothing else in the store changes. *)
Theorem X5_hit_is_relabelled fuel is_maximizing side player symbol m d mv p c r best b st :
  memos st !! m = Some d → dicts st !! best = Some b →
  place_marker mv symbol (game st) = Done p →
  getitem (grid (game st)) mv = Done None → victor (game st) = None →
  d !! grid p.2 = Some c → dicts st !! c = Some r →
  ∃ a st',
    try_move (smart_move_finder (S fuel) side player (Some m)) symbol is_maximizing
      mv best st = Done (a, st') ∧
    dicts st' = <[c := {| move := Some mv; value := value r |}]> (dicts st) ∧
    memos st' = memos st ∧ game st' = game st ∧ (a = c ∨ a = best).
Proof.
  intros Hm Hbest Hp Hfree Hv Hd Hc.
  unfold try_move. rewrite Hp. cbn [bind].
  destruct (cache_hit fuel side player NegInf PosInf m d c (with_game p.2 st) Hm Hd)
    as [-> _].
  cbn [bind fst snd]. simpl game.
  rewrite (place_then_revert _ _ _ _ Hfree Hv Hp). cbn [bind].
  unfold set_move, read. simpl. rewrite Hc. simpl.
  rewrite list_lookup_insert_eq by by eapply lookup_lt_Some. simpl.
  destruct (decide (best = c)) as [->|Hne].
  - rewrite list_lookup_insert_eq by by eapply lookup_lt_Some. simpl.
    eexists _, _. split; [done|]. simpl. destruct (improves _ _ _); auto.
  - rewrite list_lookup_insert_ne by done. rewrite Hbest. simpl.
    eexists _, _. split; [done|]. simpl. destruct (improves _ _ _); auto.
Qed.

Lemma X5_hit_is_relabelled_witness :
  ∃ a st',
    try_move (smart_move_finder 1 false X (Some 0%nat)) X true 4 1 relabel_store
      = Done (a, st') ∧
    dicts st' = <[0%nat := {| move := Some 4; value := Int 0 |}]> (dicts relabel_store) ∧
    memos st' = memos relabel_store ∧ game st' = game relabel_store ∧
    (a = 0%nat ∨ a = 1%nat).
Proof.
  apply (X5_hit_is_relabelled 0 true false X X 0
           {[ <[4%nat := Some X]> (grid new_game) := 0%nat ]} 4
           (true, {| grid := <[4%nat := Some X]> (grid new_game); victor := None |})
           0 {| move := Some 7; value := Int 0 |} 1 (worst true) relabel_store).
  - reflexivity.
  - reflexivity.
  - reflexivity.
  - reflexivity.
  - reflexivity.
  - apply lookup_singleton_eq.
  - reflexivity.
Defined.

(** ** Counting the empty cells *)

Lemma filter_enumerate_length (l : list cell) : ∀ f : nat → Z,
  length (filter (λ p : Z * cell, p.2 = None) (imap (λ i x, (f i, x)) l)) =
  length (filter (λ c : cell, c = None) l).
Proof.
  induction l as [|c l IH]; intros f; simpl; [done|].
  specialize (IH (f ∘ S)). destruct c as [m|].
  - rewrite !filter_cons_False by done. apply IH.
  - rewrite !filter_cons_True by done. simpl. f_equal. apply IH.
Qed.

(** X6.  The three queries agree on every board: [count_free()] is the
    length of [free_spaces()], and [has_space()] is true exactly when
    that count is positive, that is when [free_spaces()] is not empty. *)
Theorem X6_queries_agree g :
  count_free g = Z.of_nat (length (free_spaces g)) ∧
  (has_space g = true ↔ 0 < count_free g) ∧
  (has_space g = false ↔ free_spaces g = []).
Proof.
  assert (count_free g = Z.of_nat (length (free_spaces g))) as Hcount.
  { unfold count_free, free_spaces, enumerate.
    by rewrite length_fmap, (filter_enumerate_length _ Z.of_nat). }
  assert (has_space g = true ↔ 0 < count_free g) as Hspace.
  { unfold has_space. rewrite bool_decide_eq_true. unfold count_free. split.
    - intros Hin. assert (None ∈ filter (λ c : cell, c = None) (grid g)) as Hf
        by by apply list_elem_of_filter.
      destruct (filter _ _); [by apply elem_of_nil in Hf|simpl; lia].
    - intros Hpos. destruct (filter (λ c : cell, c = None) (grid g)) as [|c l] eqn:Hf;
        [simpl in Hpos; lia|].
      assert (c ∈ filter (λ c : cell, c = None) (grid g)) as Hc
        by (rewrite Hf; set_solver).
      apply list_elem_of_filter in Hc as [-> ?]. done. }
  split; [done|]. split; [done|].
  rewrite <- not_true_iff_false, Hspace, Hcount.
  destruct (free_spaces g); simpl; split; intros; try done; lia.
Qed.

(** ** What place_marker changes *)

(** X7.  Whenever [place_marker] returns, on a grid of any length and
    for any integer position: either it returns [False] and the board is
    untouched, the cell holding a mark; or it returns [True], the cell
    was empty, the grid differs from the old one in that cell only, which
    now holds the mark, there is one empty cell less, and the winner is
    either what it was or the mark just placed.  A winner is never
    cleared. *)
Theorem X7_place_marker_frame pos symbol g p :
  place_marker pos symbol g = Done p →
  ∃ k, index (grid g) pos = Done k ∧
    if p.1 then
      grid g !! k = Some None ∧
      grid p.2 = <[k := Some symbol]> (grid g) ∧
      count_free p.2 = count_free g - 1 ∧
      (victor p.2 = victor g ∨ victor p.2 = Some symbol)
    else (∃ m, grid g !! k = Some (Some m)) ∧ p.2 = g.
Proof.
  unfold place_marker, getitem, setitem.
  intros (c & (k & Hk & Hc)%bind_Done & Hp)%bind_Done. exists k. split; [done|].
  destruct (grid g !! k) as [c'|] eqn:Hlook; [|done]. injection Hc as ->.
  rewrite Hk in Hp. cbn [bind] in Hp. case_decide as Hfree.
  - subst c. apply bind_Done in Hp as (w & _ & [= <-]). simpl.
    pose proof (count_insert (grid g) k symbol Hlook) as Hcount.
    unfold count_free. destruct w; simpl; repeat split; auto; lia.
  - injection Hp as <-. simpl. destruct c as [m|]; [|done]. eauto.
Qed.

Lemma X7_place_marker_frame_witness :
  ∃ k, index (grid new_game) (-5) = Done k ∧
    if (true, {| grid := <[4%nat := Some O]> (grid new_game); victor := None |}).1 then
      grid new_game !! k = Some None ∧
      grid (true, {| grid := <[4%nat := Some O]> (grid new_game); victor := None |}).2
        = <[k := Some O]> (grid new_game) ∧
      count_free (true, {| grid := <[4%nat := Some O]> (grid new_game);
                           victor := None |}).2 = count_free new_game - 1 ∧
      (victor (true, {| grid := <[4%nat := Some O]> (grid new_game); victor := None |}).2
         = victor new_game ∨
       victor (true, {| grid := <[4%nat := Some O]> (grid new_game); victor := None |}).2
         = Some O)
    else (∃ m, grid new_game !! k = Some (Some m)) ∧
         (true, {| grid := <[4%nat := Some O]> (grid new_game); victor := None |}).2
           = new_game.
Proof.
  apply (X7_place_marker_frame (-5) O new_game). reflexivity.
Defined.

(** ** The result of run_game *)

Lemma place_marker_victor pos symbol g p :
  place_marker pos symbol g = Done p → victor g = None →
  victor p.2 = None ∨ (p.1 = true ∧ victor p.2 = Some symbol).
Proof.
  unfold place_marker. intros (c & _ & Hp)%bind_Done Hv. case_decide.
  - apply bind_Done in Hp as (g' & _ & (w & _ & [= <-])%bind_Done).
    destruct w; simpl; auto.
  - injection Hp as <-. auto.
Qed.

Lemma chooses_as_keeps_board s c : chooses_as s c → keeps_board s.
Proof.
  intros Hc symbol st mv st' Hs. specialize (Hc symbol st).
  destruct (c symbol (game st)); [|congruence].
  destruct Hc as (st'' & E & Hg). rewrite Hs in E. by injection E as _ <-.
Qed.

(** Both search strategies are such strategies. *)
Lemma search_strategies_keep_board fuel :
  keeps_board (minimax_strategy fuel) ∧ keeps_board (alphabeta_strategy fuel).
Proof.
  split; eapply chooses_as_keeps_board;
    [apply minimax_strategy_chooses | apply alphabeta_strategy_chooses].
Qed.

(** X8.  What [run_game] returns.  Started on a board whose winner field
    is [None], with strategies that hand the board back unchanged, the
    loop returns a mark only when that mark is in the winner field of the
    final board, and returns [None] only when the final board has no
    empty cell and no winner. *)
Theorem X8_run_game_result x_strategy o_strategy turns :
  keeps_board x_strategy → keeps_board o_strategy →
  ∀ current_player st res st',
    victor (game st) = None →
    run_game_loop turns x_strategy o_strategy current_player st = Done (res, st') →
    match res with
    | Some w => victor (game st') = Some w
    | None => victor (game st') = None ∧ has_space (game st') = false
    end.
Proof.
  intros Hx Ho. induction turns as [|turns IH]; intros cp st res st' Hv; [done|].
  simpl. destruct (has_space (game st)) eqn:Hspace.
  2:{ by intros [= <- <-]. }
  intros (r & Hr & Hrun)%bind_Done.
  assert (game r.2 = game st) as Hg.
  { destruct r as [mv st1]. case_decide; [by eapply Ho | by eapply Hx]. }
  destruct r.1 as [position|]; [|done].
  apply bind_Done in Hrun as (p & Hp & Hrun). rewrite Hg in Hp.
  destruct (place_marker_victor _ _ _ _ Hp Hv) as [Hnone|[Hb Hsome]].
  - rewrite Hnone in Hrun. destruct p.1; by eapply IH in Hrun.
  - rewrite Hb, Hsome in Hrun. simpl in Hrun. by injection Hrun as <- <-.
Qed.

Lemma X8_run_game_result_witness :
  victor (game (with_game (board (Some X) (Some O) (Some X) (Some X) (Some O) (Some O)
                             (Some O) (Some X) (Some X) None) (start last_cell))) = None ∧
  has_space (game (with_game (board (Some X) (Some O) (Some X) (Some X) (Some O) (Some O)
                                (Some O) (Some X) (Some X) None) (start last_cell)))
    = false.
Proof.
  apply (X8_run_game_result plays_8 plays_8 2
           ltac:(by intros ? ? ? ? [= _ <-]) ltac:(by intros ? ? ? ? [= _ <-])
           X (start last_cell) None).
  - reflexivity.
  - reflexivity.
Defined.

(** ** The value and the move of the full search *)

Lemma terminal_Some_value player g t :
  terminal player g = Some t →
  move t = None ∧
  (value t = Int (count_free g + 1) ∨ value t = Int (- (count_free g + 1)) ∨
   value t = Int 0).
Proof.
  unfold terminal. case_decide; [|case_decide; [|destruct (has_space g)]]; simpl;
    intros [= <-]; simpl; (split; [done|]).
  - left. f_equal; lia.
  - right. left. f_equal; lia.
  - by right; right.
Qed.

Lemma minimax_value_bound fuel : ∀ is_maximizing player g r,
  well_formed g → minimax fuel is_maximizing player g = Done r →
  ∃ z, value r = Int z ∧ - (count_free g + 1) ≤ z ≤ count_free g + 1.
Proof.
  induction fuel as [|fuel IH]; intros is_maximizing player g r Hwf; [done|].
  pose proof (count_free_bound g Hwf) as Hn.
  simpl. destruct (terminal player g) as [t|] eqn:Ht.
  { intros [= <-]. apply terminal_Some_value in Ht as [_ [Hv|[Hv|Hv]]];
      rewrite Hv; eexists; (split; [done|lia]). }
  intros Hloop. destruct (minimax_value_Int (S fuel) is_maximizing player g r Hwf)
    as [z Hz]; [by simpl; rewrite Ht|].
  apply minimax_loop_choice in Hloop
    as [[-> _]|(l1 & mv & l2 & Hmoves & _ & Hval & _)].
  { by destruct is_maximizing. }
  apply bind_Done in Hval as (p & Hp & (o & Ho & [= Hv])%bind_Done).
  destruct (place_marker_well_formed mv
              (if is_maximizing then player else other player) g Hwf)
    as (p' & Hp' & Hwf' & Hcount); [rewrite Hmoves; set_solver|].
  rewrite Hp in Hp'. injection Hp' as <-.
  destruct (IH _ _ _ _ Hwf' Ho) as (z' & Hz' & Hbound).
  exists z'. split; [congruence|lia].
Qed.

(** X9.  The value a search returns is an integer bounded by the number
    of empty cells plus one: on a board of nine cells with [n] empty
    cells and with fuel ten or more, a call of [smart_move_finder] without
    a usable cache returns a dictionary whose value is an integer [z]
    with [-(n + 1) <= z <= n + 1], and [optimized_move_finder] with the
    full window returns a dictionary with the same content. *)
Theorem X9_value_bound fuel is_maximizing player memory st :
  well_formed (game st) → fresh memory st → (10 ≤ fuel)%nat →
  ∃ a st1 b st2 r z,
    smart_move_finder fuel is_maximizing player memory st = Done (a, st1) ∧
    dicts st1 !! a = Some r ∧
    optimized_move_finder fuel is_maximizing player NegInf PosInf memory st
      = Done (b, st2) ∧
    dicts st2 !! b = Some r ∧
    value r = Int z ∧
    - (count_free (game st) + 1) ≤ z ≤ count_free (game st) + 1.
Proof.
  intros Hwf Hm Hfuel.
  pose proof (count_free_bound _ Hwf) as Hn.
  destruct (minimax_returns fuel is_maximizing player (game st) Hwf) as [r Hr]; [lia|].
  destruct (smart_move_finder_computes _ fuel _ _ memory _ _ Hr (le_n _) Hm)
    as (a & st1 & E1 & Ha & _).
  destruct (optimized_move_finder_computes _ fuel _ _ memory _ _ Hr (le_n _) Hm)
    as (b & st2 & E2 & Hb & _).
  destruct (minimax_value_bound _ _ _ _ _ Hwf Hr) as (z & Hz & Hbound).
  by exists a, st1, b, st2, r, z.
Qed.

Lemma X9_value_bound_witness :
  ∃ a st1 b st2 r z,
    smart_move_finder 10 true X None (start transposing_board) = Done (a, st1) ∧
    dicts st1 !! a = Some r ∧
    optimized_move_finder 10 true X NegInf PosInf None (start transposing_board)
      = Done (b, st2) ∧
    dicts st2 !! b = Some r ∧
    value r = Int z ∧
    - (count_free (game (start transposing_board)) + 1) ≤ z
    ≤ count_free (game (start transposing_board)) + 1.
Proof.
  apply (X9_value_bound 10 true X None (start transposing_board)).
  - reflexivity.
  - exact I.
  - lia.
Defined.

Lemma minimax_move_legal fuel is_maximizing player g r :
  well_formed g → minimax fuel is_maximizing player g = Done r →
  match terminal player g with
  | Some _ => move r = None
  | None => ∃ mv, move r = Some mv ∧ mv ∈ free_spaces g
  end.
Proof.
  intros Hwf Hr. destruct (minimax_value_Int _ _ _ _ _ Hwf Hr) as [z Hz].
  destruct fuel as [|fuel]; [done|]. simpl in Hr.
  destruct (terminal player g) as [t|] eqn:Ht.
  { injection Hr as <-. by apply terminal_Some_value in Ht as [? _]. }
  apply minimax_loop_choice in Hr as [[-> _]|(l1 & mv & l2 & Hmoves & Hmv & _)].
  { by destruct is_maximizing. }
  exists mv. split; [done|]. rewrite Hmoves. set_solver.
Qed.

(** X10.  The two search strategies answer with a legal move.  On a board
    of nine cells where the game is not over for [symbol] (no winner, an
    empty cell), with fuel ten or more, [minimax_strategy] and
    [alphabeta_strategy] return the same position, the cell at that
    position is empty, and the board is handed back unchanged; so
    [run_game] never receives [None] or an occupied cell from them. *)
Theorem X10_strategies_are_legal fuel symbol st :
  well_formed (game st) → terminal symbol (game st) = None → (10 ≤ fuel)%nat →
  ∃ mv st1 st2,
    minimax_strategy fuel symbol st = Done (Some mv, st1) ∧
    alphabeta_strategy fuel symbol st = Done (Some mv, st2) ∧
    mv ∈ free_spaces (game st) ∧ game st1 = game st ∧ game st2 = game st.
Proof.
  intros Hwf Hterm Hfuel.
  pose proof (count_free_bound _ Hwf) as Hn.
  destruct (minimax_returns fuel true symbol (game st) Hwf) as [r Hr]; [lia|].
  assert (Hlegal := minimax_move_legal _ _ _ _ _ Hwf Hr). rewrite Hterm in Hlegal.
  destruct Hlegal as (mv & Hmv & Hin).
  destruct (smart_move_finder_computes _ fuel _ _ None _ _ Hr (le_n _) I)
    as (a & st1 & E1 & Ha & Hg1).
  destruct (optimized_move_finder_computes _ fuel _ _ None _ _ Hr (le_n _) I)
    as (b & st2 & E2 & Hb & Hg2).
  exists mv, st1, st2. unfold minimax_strategy, alphabeta_strategy, read.
  rewrite E1, E2. simpl. rewrite Ha, Hb. simpl. by rewrite Hmv.
Qed.

Lemma X10_strategies_are_legal_witness :
  ∃ mv st1 st2,
    minimax_strategy 10 X (start new_game) = Done (Some mv, st1) ∧
    alphabeta_strategy 10 X (start new_game) = Done (Some mv, st2) ∧
    mv ∈ free_spaces (game (start new_game)) ∧
    game st1 = game (start new_game) ∧ game st2 = game (start new_game).
Proof.
  apply (X10_strategies_are_legal 10 X (start new_game)).
  - reflexivity.
  - reflexivity.
  - lia.
Defined.

(** ** Negative positions and the diagonals *)

Lemma all_grids_negative_ok : forallb negative_check_ok (all_grids 9) = true.
Proof. vm_compute. reflexivity. Qed.

(** X11.  The even-index shortcut of [check_win] uses the position as
    given.  A corner or the centre addressed by its negative index
    ([k - 9] for [k] among 0, 2, 4, 6, 8) has an odd position, so the
    diagonals are not tested: [place_marker] writes the mark on cell [k]
    and sets the winner only if the row or the column of the cell is
    complete.  With X on 0 and 4, [place_marker(-1, 'X')] fills cell 8,
    completes the diagonal and leaves the winner as it was. *)
Theorem X11_negative_position_skips_diagonals g k symbol :
  well_formed g → k ∈ [0; 2; 4; 6; 8]%nat → grid g !! k = Some None →
  place_marker (Z.of_nat k - 9) symbol g =
    Done (true,
          {| grid := <[k := Some symbol]> (grid g);
             victor := if row_or_column_full (<[k := Some symbol]> (grid g)) k symbol
                       then Some symbol else victor g |}).
Proof.
  intros Hwf Hk Hfree. unfold well_formed in Hwf.
  assert (In (grid g) (all_grids 9)) as Hg.
  { rewrite <- Hwf. apply all_grids_complete. }
  assert (In symbol [X; O]) as Hs by (destruct symbol; simpl; auto).
  pose proof (proj1 (forallb_forall negative_check_ok (all_grids 9))
                all_grids_negative_ok (grid g) Hg) as H1.
  unfold negative_check_ok in H1.
  pose proof (proj1 (forallb_forall _ _) H1 k (proj1 (list_elem_of_In _ _) Hk)) as H2.
  pose proof (proj1 (forallb_forall _ _) H2 symbol Hs) as H3.
  cbv beta in H3. rewrite bool_decide_eq_true_2 in H3 by done.
  assert (k < 9)%nat as Hlt by (rewrite <- Hwf; by eapply lookup_lt_Some).
  assert (index (grid g) (Z.of_nat k - 9) = Done k) as Hi.
  { unfold index. rewrite Hwf.
    destruct (Z.leb_spec 0 (Z.of_nat k - 9)); [lia|]. simpl.
    destruct (Z.leb_spec (- Z.of_nat 9) (Z.of_nat k - 9)); [|lia].
    destruct (Z.ltb_spec (Z.of_nat k - 9) 0); [|lia]. simpl. f_equal. lia. }
  unfold place_marker, getitem, setitem. rewrite Hi. cbn [bind]. rewrite Hfree.
  cbn [bind]. rewrite decide_True by done.
  rewrite (check_win_victor _ _ _ (victor g) None).
  destruct (check_win _ _ _) as [w|]; [|done]. cbn [bind].
  apply eqb_prop in H3 as <-. by destruct w.
Qed.

Lemma X11_negative_position_skips_diagonals_witness :
  place_marker (Z.of_nat 8 - 9) X diagonal_to_complete =
    Done (true,
          {| grid := <[8%nat := Some X]> (grid diagonal_to_complete);
             victor := if row_or_column_full
                            (<[8%nat := Some X]> (grid diagonal_to_complete)) 8 X
                       then Some X else victor diagonal_to_complete |}).
Proof.
  apply (X11_negative_position_skips_diagonals diagonal_to_complete 8 X).
  - reflexivity.
  - set_solver.
  - reflexivity.
Defined.

(** ** A memory that is not empty is written *)

Lemma memory_or_new_nonempty m d st :
  memos st !! m = Some d → d ≠ ∅ → memory_or_new (Some m) st = Done (m, st).
Proof.
  intros Hm Hd. unfold memory_or_new, memo_at. rewrite Hm. simpl.
  by rewrite decide_False.
Qed.

Lemma warm_call m d st player is_maximizing a st'
    (loop : nat → nat → state → outcome (nat * state)) :
  memos st !! m = Some d → d ≠ ∅ → d !! grid (game st) = None →
  (ms <- memory_or_new (Some m) st ;;
   d <- memo_at ms.1 ms.2 ;;
   match d !! grid (game ms.2) with
   | Some cached => Done (cached, ms.2)
   | None =>
       match terminal player (game ms.2) with
       | Some r => Done (new_dict r ms.2)
       | None =>
           let bs := new_dict (worst is_maximizing) ms.2 in
           r <- loop ms.1 bs.1 bs.2 ;;
           st <- memo_store ms.1 (grid (game ms.2)) r.1 r.2 ;;
           Done (r.1, st)
       end
   end) = Done (a, st') →
  match terminal player (game st) with
  | Some _ => memos st' = memos st
  | None => ∃ d', memos st' !! m = Some d' ∧ d' !! grid (game st) = Some a
  end.
Proof.
  intros Hm Hd Hkey. rewrite (memory_or_new_nonempty _ _ _ Hm Hd). cbn [bind fst snd].
  unfold memo_at at 1. rewrite Hm. cbn [bind]. rewrite Hkey.
  destruct (terminal player (game st)) as [t|].
  - by intros [= <- <-].
  - cbv zeta. intros (r & _ & (st1 & Hstore & [= <- <-])%bind_Done)%bind_Done.
    unfold memo_store, memo_at in Hstore.
    destruct (memos r.2 !! m) as [dm|] eqn:Hdm; [|done].
    injection Hstore as <-. simpl. exists (<[grid (game st) := r.1]> dm).
    split; [|by apply lookup_insert_eq].
    apply list_lookup_insert_eq. by eapply lookup_lt_Some.
Qed.

(** X12.  When the dictionary passed as [memory] is not empty it is the
    one the call works on.  If it has no entry for the current board and
    the call returns: on a board that is over (a winner, or no empty
    cell) the memories are left exactly as they were, the score of a
    finished game is not stored; on any other board the dictionary passed
    in has, on return, an entry for the board that is the dictionary
    returned. *)
Theorem X12_warm_memory_is_written fuel is_maximizing player alpha beta m d st a st' :
  memos st !! m = Some d → d ≠ ∅ → d !! grid (game st) = None →
  smart_move_finder fuel is_maximizing player (Some m) st = Done (a, st') ∨
  optimized_move_finder fuel is_maximizing player alpha beta (Some m) st = Done (a, st') →
  match terminal player (game st) with
  | Some _ => memos st' = memos st
  | None => ∃ d', memos st' !! m = Some d' ∧ d' !! grid (game st) = Some a
  end.
Proof.
  intros Hm Hd Hkey. destruct fuel as [|fuel]; [by intros [|]|].
  cbn [smart_move_finder optimized_move_finder]. intros [Hrun|Hrun].
  - by apply (warm_call m d st player is_maximizing a st'
                (λ m b st1, smart_loop
                   (smart_move_finder fuel (negb is_maximizing) player (Some m))
                   (if is_maximizing then player else other player) is_maximizing
                   (free_spaces (game st1)) b st1)).
  - by apply (warm_call m d st player is_maximizing a st'
                (λ m b st1, optimized_loop
                   (λ a b, optimized_move_finder fuel (negb is_maximizing) player a b
                             (Some m))
                   (if is_maximizing then player else other player) is_maximizing
                   (free_spaces (game st1)) b alpha beta st1)).
Qed.

Lemma X12_warm_memory_is_written_witness :
  match terminal X (game last_cell_warm) with
  | Some _ => memos last_cell_warm_after = memos last_cell_warm
  | None => ∃ d', memos last_cell_warm_after !! 0%nat = Some d' ∧
                  d' !! grid (game last_cell_warm) = Some 2%nat
  end.
Proof.
  apply (X12_warm_memory_is_written 2 true X NegInf PosInf 0 {[ [] := 0%nat ]}
           last_cell_warm 2 last_cell_warm_after).
  - reflexivity.
  - intros H. apply (f_equal (λ d : gmap (list cell) nat, d !! [])) in H.
    by rewrite lookup_singleton_eq, lookup_empty in H.
  - vm_compute. reflexivity.
  - left. vm_compute. reflexivity.
Defined.

(** ** display *)

Lemma row_text_three c0 c1 c2 :
  row_text [c0; c1; c2] =
    "| " +:+ cell_text c0 +:+ " | " +:+ cell_text c1 +:+ " | " +:+ cell_text c2 +:+ " |"
  ∧ String.length (row_text [c0; c1; c2]) = 13%nat.
Proof. by destruct c0 as [[]|], c1 as [[]|], c2 as [[]|]. Qed.

(** X13.  [display] on a board of nine cells prints seven strings: the
    top border after a line break, then for each of the three rows the
    row and a border.  Row [i] shows cells [3i], [3i + 1], [3i + 2] in
    that order, and every row is as wide as the border of thirteen [=]. *)
Theorem X13_display_rows g :
  well_formed g →
  ∃ c0 c1 c2 c3 c4 c5 c6 c7 c8,
    grid g = [c0; c1; c2; c3; c4; c5; c6; c7; c8] ∧
    display g =
      [String "010"%char "=============";
       "| " +:+ cell_text c0 +:+ " | " +:+ cell_text c1 +:+ " | " +:+ cell_text c2 +:+ " |";
       "=============";
       "| " +:+ cell_text c3 +:+ " | " +:+ cell_text c4 +:+ " | " +:+ cell_text c5 +:+ " |";
       "=============";
       "| " +:+ cell_text c6 +:+ " | " +:+ cell_text c7 +:+ " | " +:+ cell_text c8 +:+ " |";
       "============="] ∧
    Forall (λ s, String.length s = 13%nat) (tail (display g)).
Proof.
  unfold well_formed, display. intros Hwf.
  destruct (grid g) as [|c0 [|c1 [|c2 [|c3 [|c4 [|c5 [|c6 [|c7 [|c8 [|c9 l]]]]]]]]]];
    try done.
  exists c0, c1, c2, c3, c4, c5, c6, c7, c8. split; [reflexivity|].
  change (flat_map _ _) with
    [row_text [c0; c1; c2]; times "=" 13; row_text [c3; c4; c5]; times "=" 13;
     row_text [c6; c7; c8]; times "=" 13].
  destruct (row_text_three c0 c1 c2) as [<- H0], (row_text_three c3 c4 c5) as [<- H1],
    (row_text_three c6 c7 c8) as [<- H2].
  split; [reflexivity|]. simpl tail.
  repeat (apply Forall_cons; split; [first [assumption | reflexivity]|]).
  apply Forall_nil_2.
Qed.

Lemma X13_display_rows_witness :
  ∃ c0 c1 c2 c3 c4 c5 c6 c7 c8,
    grid new_game = [c0; c1; c2; c3; c4; c5; c6; c7; c8] ∧
    display new_game =
      [String "010"%char "=============";
       "| " +:+ cell_text c0 +:+ " | " +:+ cell_text c1 +:+ " | " +:+ cell_text c2 +:+ " |";
       "=============";
       "| " +:+ cell_text c3 +:+ " | " +:+ cell_text c4 +:+ " | " +:+ cell_text c5 +:+ " |";
       "=============";
       "| " +:+ cell_text c6 +:+ " | " +:+ cell_text c7 +:+ " | " +:+ cell_text c8 +:+ " |";
       "============="] ∧
    Forall (λ s, String.length s = 13%nat) (tail (display new_game)).
Proof. apply (X13_display_rows new_game). reflexivity. Defined.
